(** * Chromox beat-detection service: confidence scorer, downbeat estimator
      and the [/analyze] boundary of [backend/beat_service/server.py].

    Modelling conventions.
    - A Python / numpy [float] is an exact rational ([Q]).  Rounding error,
      overflow, [inf] and [nan] are outside the model.  The one place where
      numpy would manufacture [inf] or [nan] from finite data is a division
      by zero; the model stops there and reports [NonFinite], so that "no
      division by zero happens" is a statement about the result.
    - A numpy integer array is a [list Z], a float array a [list Q].
    - A Python exception is a value of [exn]; code that can raise lives in
      the error monad [result].
    - The square root behind [np.std] is a parameter of the development:
      nothing proved here depends on which function it is. *)

From Stdlib Require Import ZArith QArith Qround Qabs Lqa Lia String Ascii Sorted.
From stdpp Require Import base list gmap strings.

Local Open Scope Q_scope.

(** ** Exceptions and the error monad *)

Inductive exn : Type :=
| IndexError (index : Z) (size : nat)   (* numpy: index out of bounds *)
| NonFinite                             (* a division by zero *)
| ProviderError (msg : string).         (* raised inside librosa *)

Definition result (A : Type) : Type := exn + A.

Definition raise {A : Type} (e : exn) : result A := inl e.

#[global] Instance result_ret : MRet result := fun A x => inr x.
#[global] Instance result_bind : MBind result :=
  fun A B k m => match m with inl e => inl e | inr a => k a end.

(** [[f(x) for x in xs]] where [f] may raise: the first failure wins. *)
Fixpoint result_mapM {A B : Type} (f : A -> result B) (xs : list A)
  : result (list B) :=
  match xs with
  | [] => mret []
  | x :: xs' => y ← f x; ys ← result_mapM f xs'; mret (y :: ys)
  end.

(** ** Python and numpy primitives *)

Definition Qlt_bool (x y : Q) : bool := negb (Qle_bool y x).

(** Builtin [min(a, b)]: [b] when [b < a], otherwise [a]. *)
Definition py_min (a b : Q) : Q := if Qlt_bool b a then b else a.

(** Builtin [max(a, b)]: [b] when [b > a], otherwise [a]. *)
Definition py_max (a b : Q) : Q := if Qlt_bool a b then b else a.

(** Nearest integer, ties to the even neighbour. *)
Definition round_half_even (v : Q) : Z :=
  let f := Qfloor v in
  let r := v - inject_Z f in
  if Qlt_bool r (1 # 2) then f
  else if Qlt_bool (1 # 2) r then (f + 1)%Z
  else if Z.even f then f else (f + 1)%Z.

(** [round(x, ndigits)]. *)
Definition py_round (x : Q) (ndigits : nat) : Q :=
  let scale := (10 ^ Z.of_nat ndigits)%Z in
  Qmake (round_half_even (x * inject_Z scale)) (Z.to_pos scale).

(** [range(start, stop, step)] for a positive step. *)
Definition py_range (start stop step : nat) : list nat :=
  map (fun k => (start + k * step)%nat)
      (seq 0 ((stop - start + step - 1) / step)).

(** Float division; the divisor must not be zero. *)
Definition float_div (x y : Q) : result Q :=
  if Qeq_bool y 0 then raise NonFinite else mret (x / y).

(** [a[i]] on a one-dimensional array: negative indices count from the
    end, anything outside [-n .. n-1] raises. *)
Definition np_getitem (a : list Q) (i : Z) : result Q :=
  let n := Z.of_nat (length a) in
  let j := if (i <? 0)%Z then (i + n)%Z else i in
  if ((0 <=? j) && (j <? n))%Z then
    match a !! Z.to_nat j with
    | Some x => mret x
    | None => raise (IndexError i (length a))
    end
  else raise (IndexError i (length a)).

(** [a[idx]] with an integer index array. *)
Definition np_take (a : list Q) (idx : list Z) : result (list Q) :=
  result_mapM (np_getitem a) idx.

(** [frames[frames < bound]]: the boolean-mask selection. *)
Definition np_mask_lt (frames : list Z) (bound : Z) : list Z :=
  filter (fun f => (f < bound)%Z) frames.

Definition np_sum (xs : list Q) : Q := foldl Qplus 0 xs.

Definition np_mean (xs : list Q) : result Q :=
  float_div (np_sum xs) (inject_Z (Z.of_nat (length xs))).

(** [np.diff]: successive differences. *)
Fixpoint np_diff (xs : list Q) : list Q :=
  match xs with
  | x :: (y :: _) as rest => (y - x) :: np_diff rest
  | _ => []
  end.

(** [librosa.frames_to_time] with the default offset:
    [frame * hop_length / float(sr)]. *)
Definition frame_time (sr hop_length : Z) (frame : Z) : Q :=
  inject_Z (frame * hop_length) / inject_Z sr.

Definition frames_to_time (frames : list Z) (sr hop_length : Z)
  : result (list Q) :=
  result_mapM (fun f => float_div (inject_Z (f * hop_length)) (inject_Z sr))
              frames.

(** ** The downbeat estimator

    [estimate_downbeats], lines 71-85.  The short branch returns
    [beats[:1].tolist()], the first frame index as it stands. *)

Definition estimate_downbeats (beats : list Z) (bpm : Q) (sr hop_length : Z)
  : result (list Q) :=
  if (length beats <? 4)%nat then
    mret (if (0 <? length beats)%nat then map inject_Z (take 1 beats) else [])
  else
    beat_times ← frames_to_time beats sr hop_length;
    let downbeat_indices := py_range 0 (length beat_times) 4 in
    result_mapM (fun i => np_getitem beat_times (Z.of_nat i))
      (filter (fun i => (i < length beat_times)%nat) downbeat_indices).

(** ** Data of the [/analyze] endpoint *)

Record AnalyzeRequest : Type := { audio_path : string }.

Record BeatAnalysisResponse : Type := {
  bpm : Q;
  confidence : Q;
  beats : list Q;
  downbeats : list Q;
  duration : Q
}.

(** The [detail] string of an [HTTPException], by the f-string that builds
    it and the value interpolated into it. *)
Inductive http_detail : Type :=
| AudioFileNotFound (path : string)
| UnsupportedAudioFormat (suffix : string)
| AnalysisFailed (e : exn).

Record HTTPException : Type := { status_code : Z; detail : http_detail }.

(** What [beat_track] hands back as tempo: a scalar in older librosa
    versions, an array in newer ones. *)
Inductive Tempo : Type :=
| TempoScalar (t : Q)
| TempoArray (ts : list Q).

(** The four librosa entry points that work on the audio itself:
    [librosa.load], [librosa.get_duration], [librosa.onset.onset_strength]
    and [librosa.beat.beat_track].  A call trace lists the calls to these
    four.  [librosa.frames_to_time], the unit conversion on frame indices,
    is the function [frames_to_time] above; its calls are not events of
    the trace. *)
Inductive call : Type := Load | GetDuration | OnsetStrength | BeatTrack.

(** The file system as [pathlib.Path] shows it. *)
Record FileSystem : Type := {
  path_exists : string -> bool;
  path_suffix : string -> string
}.

(** The librosa entry points that decode and analyse the audio; each may
    raise. *)
Record Librosa : Type := {
  librosa_load : string -> Z -> result (list Q * Z);
  librosa_get_duration : list Q -> Z -> result Q;
  librosa_onset_strength : list Q -> Z -> Z -> result (list Q);
  librosa_beat_track : list Q -> Z -> Z -> Q -> result (Tempo * list Z)
}.

(** Computations that may raise and that record their calls to the four
    audio entry points, in the order made. *)
Definition traced (A : Type) : Type := (list call * result A)%type.

#[global] Instance traced_ret : MRet traced := fun A x => ([], inr x).
#[global] Instance traced_bind : MBind traced :=
  fun A B k m =>
    match m with
    | (t, inl e) => (t, inl e)
    | (t, inr a) => let '(t', r) := k a in (t ++ t', r)
    end.

Definition lib_call {A : Type} (c : call) (r : result A) : traced A := ([c], r).
Definition pure_step {A : Type} (r : result A) : traced A := ([], r).

(** [try: body  except Exception as e: raise handler(e)]. *)
Definition try_except {A : Type} (body : traced A) (handler : exn -> HTTPException)
  : list call * (HTTPException + A) :=
  match body with
  | (t, inl e) => (t, inl (handler e))
  | (t, inr a) => (t, inr a)
  end.

(** [str.lower] on the ASCII letters.  No character outside ASCII lowers
    to a letter that occurs in an accepted suffix, so membership in the
    accepted list is decided the same way. *)
Definition ascii_lower (c : ascii) : ascii :=
  let n := nat_of_ascii c in
  if ((65 <=? n) && (n <=? 90))%nat then ascii_of_nat (n + 32) else c.

Fixpoint str_lower (s : string) : string :=
  match s with
  | EmptyString => EmptyString
  | String c s' => String (ascii_lower c) (str_lower s')
  end.

Definition accepted_suffixes : list string :=
  [".wav"; ".mp3"; ".flac"; ".ogg"; ".m4a"; ".aac"]%string.

Definition str_in (s : string) (l : list string) : bool :=
  existsb (String.eqb s) l.

Section Scorer.

(** The floating-point square root used by [np.std]. *)
Variable fsqrt : Q -> Q.

(** [np.std]: [sqrt(mean(abs(x - mean(x)) ** 2))]. *)
Definition np_std (xs : list Q) : result Q :=
  m ← np_mean xs;
  v ← np_mean (map (fun x => Qabs (x - m) ^ 2) xs);
  mret (fsqrt v).

(** ** The confidence scorer *)

(** Lines 57-61 of [compute_confidence]: the coefficient of variation of
    the inter-beat intervals.  The conditional expression tests the mean
    first and only then computes [np.std(..) / np.mean(..)]. *)
Definition interval_cv_of (beat_times : list Q) : result Q :=
  if (1 <? length beat_times)%nat then
    let intervals := np_diff beat_times in
    m ← np_mean intervals;
    if Qlt_bool 0 m then
      s ← np_std intervals; m' ← np_mean intervals; float_div s m'
    else mret 1
  else mret 1.

(** [compute_confidence], lines 31-68. *)
Definition compute_confidence (onset_env : list Q) (beat_frames : list Z)
    (sr hop_length : Z) : result Q :=
  if (length beat_frames <? 4)%nat then mret 0.3
  else
    beat_strengths ←
      np_take onset_env
        (np_mask_lt beat_frames (Z.of_nat (length onset_env)));
    if (length beat_strengths <? 2)%nat then mret 0.4
    else
      mean_strength ← np_mean beat_strengths;
      std_strength ← np_std beat_strengths;
      if Qeq_bool mean_strength 0 then mret 0.3
      else
        cv ← float_div std_strength mean_strength;
        beat_times ← frames_to_time beat_frames sr hop_length;
        interval_cv ← interval_cv_of beat_times;
        let strength_confidence := py_max 0.2 (py_min 1 (1 - cv)) in
        let interval_confidence := py_max 0.2 (py_min 1 (1 - interval_cv)) in
        let confidence :=
          strength_confidence * 0.4 + interval_confidence * 0.6 in
        mret (py_round confidence 3).

(** ** The [/analyze] endpoint *)

Variable fs : FileSystem.
Variable librosa : Librosa.

(** [analyze_audio], lines 88-149.  The result pairs the library calls
    made with the response or the [HTTPException] raised. *)
Definition analyze_audio (request : AnalyzeRequest)
  : list call * (HTTPException + BeatAnalysisResponse) :=
  let path := audio_path request in
  if negb (path_exists fs path) then
    ([], inl {| status_code := 404; detail := AudioFileNotFound path |})
  else if negb (str_in (str_lower (path_suffix fs path)) accepted_suffixes) then
    ([], inl {| status_code := 400;
                detail := UnsupportedAudioFormat (path_suffix fs path) |})
  else
    try_except
      ('(y, sr) ← lib_call Load (librosa_load librosa path 22050);
       duration ← lib_call GetDuration (librosa_get_duration librosa y sr);
       let hop_length := 512%Z in
       onset_env ← lib_call OnsetStrength
                     (librosa_onset_strength librosa y sr hop_length);
       '(tempo, beat_frames) ←
          lib_call BeatTrack
            (librosa_beat_track librosa onset_env sr hop_length 120);
       bpm ← pure_step (match tempo with
                        | TempoArray ts => np_getitem ts 0
                        | TempoScalar t => mret t
                        end);
       beat_times ← pure_step (frames_to_time beat_frames sr hop_length);
       confidence ←
         pure_step (compute_confidence onset_env beat_frames sr hop_length);
       downbeats ←
         pure_step (estimate_downbeats beat_frames bpm sr hop_length);
       mret {| bpm := py_round bpm 2;
               confidence := confidence;
               beats := map (fun t => py_round t 4) beat_times;
               downbeats := map (fun t => py_round t 4) downbeats;
               duration := py_round duration 3 |})
      (fun e => {| status_code := 500; detail := AnalysisFailed e |}).

End Scorer.

(** A concrete square root for running examples: the floor of the root at
    twelve decimals. *)
Definition sqrt12 (q : Q) : Q :=
  let s := (10 ^ 12)%Z in
  Qmake (Z.sqrt (Qfloor (q * inject_Z (s * s)))) (Z.to_pos s).

(** The four library calls of a complete analysis, in order. *)
Definition all_calls : list call := [Load; GetDuration; OnsetStrength; BeatTrack].

(** * The effects service: [backend/effects_service/server.py]

    [apply_placeholder_chain], lines 12-36.  A pydub [AudioSegment] and
    its methods are parameters; the settings are the dictionary that
    [json.loads] produced. *)

Module Effects.

(** A value decoded from JSON. *)
Inductive json : Type :=
| JNull
| JBool (b : bool)
| JNumber (x : Q)
| JString (s : string)
| JArray      (* a list; its items play no part here *)
| JObject.    (* an object; its fields play no part here *)

Inductive fx_exn : Type := TypeError | ValueError.

Definition fx_result (A : Type) : Type := fx_exn + A.

#[global] Instance fx_ret : MRet fx_result := fun A x => inr x.
#[global] Instance fx_bind : MBind fx_result :=
  fun A B k m => match m with inl e => inl e | inr a => k a end.

(** [int(x)] on a float: truncation towards zero. *)
Definition py_int (x : Q) : Z := Z.quot (Qnum x) (Zpos (Qden x)).

(** [settings.get(key, default)]. *)
Definition settings_get (settings : gmap string json) (key : string)
    (dflt : json) : json :=
  default dflt (settings !! key).

Section Chain.

Variable AudioSegment : Type.
(** [audio[:ms]] and [audio[ms:]]. *)
Variable slice_until : AudioSegment -> Z -> AudioSegment.
Variable slice_from : AudioSegment -> Z -> AudioSegment.
(** [a + b]. *)
Variable concat : AudioSegment -> AudioSegment -> AudioSegment.
Variable high_pass_filter : AudioSegment -> Z -> AudioSegment.
Variable low_pass_filter : AudioSegment -> Z -> AudioSegment.
Variable apply_gain : AudioSegment -> Q -> AudioSegment.
(** The panning itself, for an amount pydub accepts. *)
Variable pan : AudioSegment -> Q -> AudioSegment.
Variable overlay : AudioSegment -> AudioSegment -> AudioSegment.
(** [float(s)] on a string; [None] where Python raises [ValueError]. *)
Variable parse_float : string -> option Q.

(** [seg.pan(amount)]: pydub raises [ValueError] unless
    [-1.0 <= amount <= 1.0]. *)
Definition seg_pan (seg : AudioSegment) (amount : Q)
  : fx_result AudioSegment :=
  if Qle_bool (-1) amount && Qle_bool amount 1 then mret (pan seg amount)
  else inl ValueError.

(** [float(v)]. *)
Definition py_float (v : json) : fx_result Q :=
  match v with
  | JNumber x => mret x
  | JBool b => mret (if b then 1 else 0)
  | JString s =>
      match parse_float s with
      | Some x => mret x
      | None => inl ValueError
      end
  | JNull | JArray | JObject => inl TypeError
  end.

Definition apply_placeholder_chain (audio : AudioSegment) (engine : string)
    (settings : gmap string json) (preview_seconds : option Q)
  : fx_result AudioSegment :=
  let audio :=
    match preview_seconds with
    | Some p =>
        if Qeq_bool p 0 then audio
        else slice_until audio (py_int (p * 1000))
    | None => audio
    end in
  orbit_speed ← py_float (settings_get settings "orbitSpeed" (JNumber 0.5));
  orbit_depth ← py_float (settings_get settings "orbitDepth" (JNumber 0.8));
  audio ←
    (if str_in engine ["rave-ddsp"; "rave-ddsp-8d"]%string then
       let audio := low_pass_filter (high_pass_filter audio 120) 11000 in
       clarity ← py_float (settings_get settings "clarity" (JNumber 0.7));
       mret (apply_gain audio ((clarity - 0.5) * 6))
     else mret audio);
  if str_in engine ["rave-ddsp-8d"; "resonance-8d"]%string then
    let offset := Z.max 1 (py_int (orbit_speed * 120)) in
    left ← seg_pan audio (- orbit_depth);
    right ← seg_pan audio orbit_depth;
    let shifted := concat (slice_from right offset) (slice_until right offset) in
    mret (overlay left shifted)
  else mret audio.

End Chain.

End Effects.

(** * The contract, in its own words

    The definitions below follow the wording of the service contract, not
    the code; the properties compare the two. *)

(** "Select every 4th beat starting at index 0." *)
Fixpoint every_fourth {A : Type} (l : list A) : list A :=
  match l with
  | [] => []
  | x :: (_ :: _ :: _ :: rest) => x :: every_fourth rest
  | x :: _ => [x]
  end.

(** [l1] is a subsequence of [l2]: every value of [l1] occurs in [l2], in
    the same relative order.  Values are compared as numbers. *)
Inductive Qsubseq : list Q -> list Q -> Prop :=
| Qsubseq_nil : Qsubseq [] []
| Qsubseq_skip y l1 l2 : Qsubseq l1 l2 -> Qsubseq l1 (y :: l2)
| Qsubseq_cons x y l1 l2 : x == y -> Qsubseq l1 l2 -> Qsubseq (x :: l1) (y :: l2).

Definition mean_of (xs : list Q) : Q :=
  np_sum xs / inject_Z (Z.of_nat (length xs)).

(** "The onset-strength values at each (bounds-filtered) beat-frame
    position." *)
Definition strengths_at (onset_curve : list Q) (beat_frames : list Z) : list Q :=
  omap (fun f => onset_curve !! Z.to_nat f)
       (filter (fun f => (0 <= f < Z.of_nat (length onset_curve))%Z) beat_frames).

(** "Successive inter-beat gaps." *)
Definition successive_gaps (times : list Q) : list Q :=
  zip_with (fun a b => b - a) times (drop 1 times).

Definition clamp (x lo hi : Q) : Q :=
  if Qlt_bool x lo then lo else if Qlt_bool hi x then hi else x.

Section Contract.

Variable fsqrt : Q -> Q.

(** Population standard deviation. *)
Definition stddev_of (xs : list Q) : Q :=
  fsqrt (mean_of (map (fun x => (x - mean_of xs) ^ 2) xs)).

(** Coefficient of variation: "stddev / mean". *)
Definition cv_of (xs : list Q) : Q := stddev_of xs / mean_of xs.

(** "cv_interval": 1.0 with fewer than two beat times or a mean gap that
    is not positive, the coefficient of variation of the gaps otherwise. *)
Definition cv_interval (beat_times : list Q) : Q :=
  if (length beat_times <? 2)%nat then 1
  else
    let gaps := successive_gaps beat_times in
    if Qlt_bool 0 (mean_of gaps) then cv_of gaps else 1.

(** "0.4 * strength_subscore + 0.6 * interval_subscore, rounded to 3
    decimal places." *)
Definition combined_confidence (strengths beat_times : list Q) : Q :=
  py_round (0.4 * clamp (1 - cv_of strengths) 0.2 1
            + 0.6 * clamp (1 - cv_interval beat_times) 0.2 1) 3.

End Contract.

(** * Test doubles for the endpoint's collaborators *)

(** A file system in which every path exists and has the given suffix. *)
Definition fs_with_suffix (suffix : string) : FileSystem :=
  {| path_exists := fun _ => true; path_suffix := fun _ => suffix |}.


(** A librosa that decodes to [y], reports [dur] seconds, the onset
    envelope [env] and the beat tracking result [(tempo, frames)]. *)
Definition librosa_stub (y : list Q) (dur : Q) (env : list Q)
    (tempo : Tempo) (frames : list Z) : Librosa :=
  {| librosa_load := fun _ sr => inr (y, sr);
     librosa_get_duration := fun _ _ => inr dur;
     librosa_onset_strength := fun _ _ _ => inr env;
     librosa_beat_track := fun _ _ _ _ => inr (tempo, frames) |}.

(** A librosa whose decoder raises. *)
Definition librosa_broken (msg : string) : Librosa :=
  {| librosa_load := fun _ _ => inl (ProviderError msg);
     librosa_get_duration := fun _ _ => inl (ProviderError msg);
     librosa_onset_strength := fun _ _ _ => inl (ProviderError msg);
     librosa_beat_track := fun _ _ _ _ => inl (ProviderError msg) |}.

(** An audio segment as its list of millisecond slots, for running the
    effects chain: slicing and concatenation are those of lists, filters,
    gain and panning keep the slots, an overlay keeps the overlaid ones. *)
Definition ms_chain :=
  Effects.apply_placeholder_chain (list Z)
    (fun a n => take (Z.to_nat n) a) (fun a n => drop (Z.to_nat n) a) app
    (fun a _ => a) (fun a _ => a) (fun a _ => a) (fun a _ => a)
    (fun _ b => b) (fun _ => None).

(** * Properties *)

(** ** The error monad and the primitives *)

Lemma result_mapM_ok {A B : Type} (f : A -> result B) (g : A -> B) xs :
  (forall x, x ∈ xs -> f x = inr (g x)) ->
  result_mapM f xs = inr (map g xs).
Proof.
  induction xs as [|x xs IH]; intros Hf; [reflexivity|].
  cbn. rewrite (Hf x) by left. cbn.
  rewrite IH by (intros z Hz; apply Hf; now right).
  reflexivity.
Qed.

Lemma float_div_ok x y : ~ y == 0 -> float_div x y = inr (x / y).
Proof.
  intros Hy. unfold float_div.
  destruct (Qeq_bool y 0) eqn:E; [|reflexivity].
  apply Qeq_bool_eq in E. contradiction.
Qed.

Lemma inject_Z_nonzero z : z <> 0%Z -> ~ inject_Z z == 0.
Proof. intros Hz H. apply Hz. unfold Qeq in H. cbn in H. lia. Qed.

Lemma frames_to_time_ok frames sr hop :
  sr <> 0%Z ->
  frames_to_time frames sr hop = inr (map (frame_time sr hop) frames).
Proof.
  intros Hsr. unfold frames_to_time. apply result_mapM_ok.
  intros f _. apply float_div_ok. now apply inject_Z_nonzero.
Qed.

Lemma np_getitem_nat (a : list Q) (i : nat) x :
  a !! i = Some x -> np_getitem a (Z.of_nat i) = inr x.
Proof.
  intros Hx. pose proof (lookup_lt_Some _ _ _ Hx) as Hlt.
  unfold np_getitem.
  destruct (Z.ltb_spec (Z.of_nat i) 0); [lia|].
  destruct (Z.leb_spec 0 (Z.of_nat i)); [|lia].
  destruct (Z.ltb_spec (Z.of_nat i) (Z.of_nat (length a))); [|lia].
  cbn. rewrite Nat2Z.id, Hx. reflexivity.
Qed.

(** ** The downbeat estimator *)

Lemma every_fourth_lookup {A : Type} (l : list A) k :
  every_fourth l !! k = l !! (4 * k)%nat.
Proof.
  revert l. induction k as [|k IH]; intros l.
  - destruct l as [|a [|b [|c [|d r]]]]; reflexivity.
  - replace (4 * S k)%nat with (S (S (S (S (4 * k))))) by lia.
    destruct l as [|a [|b [|c [|d r]]]]; try reflexivity.
    cbn. apply IH.
Qed.

Lemma every_fourth_length {A : Type} (l : list A) :
  length (every_fourth l) = ((length l + 3) / 4)%nat.
Proof.
  assert (H : forall n (l : list A), (length l <= n)%nat ->
            length (every_fourth l) = ((length l + 3) / 4)%nat).
  { intros n. induction n as [|n IH]; intros l0 Hn.
    - destruct l0; [reflexivity|cbn in Hn; lia].
    - destruct l0 as [|a [|b [|c [|d r]]]]; try reflexivity.
      cbn [every_fourth length]. rewrite IH by (cbn in Hn; lia).
      replace (S (S (S (S (length r)))) + 3)%nat with (length r + 3 + 1 * 4)%nat by lia.
      rewrite Nat.div_add by lia. lia. }
  apply (H (length l)). lia.
Qed.

Lemma every_fourth_sublist {A : Type} (l : list A) : sublist (every_fourth l) l.
Proof.
  assert (H : forall n (l : list A), (length l <= n)%nat ->
            sublist (every_fourth l) l).
  { intros n. induction n as [|n IH]; intros l0 Hn.
    - destruct l0; [constructor|cbn in Hn; lia].
    - destruct l0 as [|a [|b [|c [|d r]]]]; cbn [every_fourth].
      + constructor.
      + constructor. constructor.
      + constructor. apply sublist_nil_l.
      + constructor. apply sublist_nil_l.
      + constructor. do 3 apply sublist_cons. apply IH. cbn in Hn. lia. }
  apply (H (length l)). lia.
Qed.

Lemma filter_all {A : Type} (P : A -> Prop) `{forall x, Decision (P x)} l :
  Forall P l -> filter P l = l.
Proof.
  induction 1 as [|x l Hx _ IH]; [reflexivity|].
  rewrite filter_cons_True by assumption. now rewrite IH.
Qed.

Lemma py_range_stride4_bound n i : i ∈ py_range 0 n 4 -> (i < n)%nat.
Proof.
  unfold py_range. intros Hi. apply list_elem_of_In in Hi.
  apply in_map_iff in Hi. destruct Hi as (k & <- & Hk).
  apply in_seq in Hk.
  pose proof (Nat.div_mod_eq (n - 0 + 4 - 1) 4).
  pose proof (Nat.mod_upper_bound (n - 0 + 4 - 1) 4). lia.
Qed.

Lemma py_range_stride4_lookup n k :
  py_range 0 n 4 !! k = if decide (4 * k < n)%nat then Some (4 * k)%nat else None.
Proof.
  unfold py_range. rewrite list_lookup_fmap.
  pose proof (Nat.div_mod_eq (n - 0 + 4 - 1) 4).
  pose proof (Nat.mod_upper_bound (n - 0 + 4 - 1) 4).
  destruct (decide (4 * k < n)%nat).
  - rewrite lookup_seq_lt by lia. cbn. f_equal. lia.
  - rewrite lookup_seq_ge by lia. reflexivity.
Qed.

(** The comprehension of the long branch picks exactly every fourth time. *)
Lemma downbeat_comprehension (beat_times : list Q) :
  result_mapM (fun i => np_getitem beat_times (Z.of_nat i))
    (filter (fun i => (i < length beat_times)%nat)
            (py_range 0 (length beat_times) 4))
  = inr (every_fourth beat_times).
Proof.
  set (n := length beat_times).
  assert (Hfilter : filter (fun i => (i < n)%nat) (py_range 0 n 4) = py_range 0 n 4).
  { apply filter_all. apply Forall_forall. intros i Hi.
    now apply py_range_stride4_bound. }
  rewrite Hfilter.
  rewrite (result_mapM_ok _ (fun i => default 0 (beat_times !! i))).
  - f_equal. apply list_eq. intros k.
    rewrite list_lookup_fmap, py_range_stride4_lookup, every_fourth_lookup.
    destruct (decide (4 * k < n)%nat) as [Hk|Hk].
    + destruct (lookup_lt_is_Some_2 beat_times (4 * k) Hk) as [x Hx].
      cbn -[Nat.mul]. rewrite Hx. reflexivity.
    + symmetry. apply lookup_ge_None. unfold n in Hk. lia.
  - intros i Hi. apply py_range_stride4_bound in Hi.
    destruct (lookup_lt_is_Some_2 beat_times i Hi) as [x Hx].
    rewrite Hx. cbn. now apply np_getitem_nat.
Qed.

Lemma estimate_downbeats_long beats bpm sr hop :
  (4 <= length beats)%nat -> sr <> 0%Z ->
  estimate_downbeats beats bpm sr hop
  = inr (every_fourth (map (frame_time sr hop) beats)).
Proof.
  intros Hlen Hsr. unfold estimate_downbeats.
  destruct (Nat.ltb_spec (length beats) 4); [lia|].
  rewrite frames_to_time_ok by assumption. cbn [mbind result_bind].
  apply downbeat_comprehension.
Qed.

Lemma estimate_downbeats_short f rest bpm sr hop :
  (length (f :: rest) < 4)%nat ->
  estimate_downbeats (f :: rest) bpm sr hop = inr [inject_Z f].
Proof.
  intros Hlen. unfold estimate_downbeats.
  destruct (Nat.ltb_spec (length (f :: rest)) 4); [|lia].
  reflexivity.
Qed.

(** C5.  With at least four beat frames (and a sample rate that is not
    zero) the estimator converts every frame to a time and returns the
    times at indices 0, 4, 8, ... in their original order; for eight
    equally spaced frames [k, 2k, ..., 8k] these are the times of the
    first and the fifth beat. *)
Theorem estimate_downbeats_stride4 (beats : list Z) (bpm : Q) (sr hop : Z) :
  (4 <= length beats)%nat -> sr <> 0%Z ->
  let beat_times := map (frame_time sr hop) beats in
  exists downbeats : list Q,
    estimate_downbeats beats bpm sr hop = inr downbeats
    /\ downbeats = every_fourth beat_times
    /\ length downbeats = ((length beats + 3) / 4)%nat
    /\ (forall k, downbeats !! k = beat_times !! (4 * k)%nat)
    /\ sublist downbeats beat_times
    /\ (forall k : Z,
          beats = map (fun i => (i * k)%Z) [1; 2; 3; 4; 5; 6; 7; 8]%Z ->
          downbeats = [frame_time sr hop k; frame_time sr hop (5 * k)]).
Proof.
  intros Hlen Hsr beat_times.
  exists (every_fourth beat_times). repeat split.
  - now apply estimate_downbeats_long.
  - rewrite every_fourth_length. unfold beat_times. now rewrite length_map.
  - intros k. apply every_fourth_lookup.
  - apply every_fourth_sublist.
  - intros k ->. unfold beat_times. cbn [map every_fourth].
    replace (1 * k)%Z with k by lia. reflexivity.
Qed.

Lemma estimate_downbeats_stride4_witness :
  exists downbeats : list Q,
    estimate_downbeats [3; 6; 9; 12; 15; 18; 21; 24]%Z 120 22050 512
    = inr downbeats
    /\ downbeats = [frame_time 22050 512 3; frame_time 22050 512 15].
Proof.
  destruct (estimate_downbeats_stride4
              [3; 6; 9; 12; 15; 18; 21; 24]%Z 120 22050 512)
    as (ds & Hrun & _ & _ & _ & _ & Hex).
  - cbn. lia.
  - lia.
  - exists ds. split; [exact Hrun|]. apply (Hex 3%Z). reflexivity.
Defined.

(** C9.  The tempo argument does not influence the estimator. *)
Theorem estimate_downbeats_ignores_tempo
    (beats : list Z) (b1 b2 : Q) (sr hop : Z) :
  estimate_downbeats beats b1 sr hop = estimate_downbeats beats b2 sr hop.
Proof. reflexivity. Qed.

(** C1.  On an empty frame array the estimator returns the empty list.
    On the one-frame array [[10]] at 22050 Hz and hop 512 it returns the
    frame index 10 itself, which is not the time of that frame
    (10 * 512 / 22050 seconds). *)
Theorem estimate_downbeats_short_is_frame_index :
  estimate_downbeats [] 120 22050 512 = inr []
  /\ estimate_downbeats [10%Z] 120 22050 512 = inr [inject_Z 10]
  /\ frame_time 22050 512 10 == 5120 # 22050
  /\ ~ inject_Z 10 == frame_time 22050 512 10.
Proof.
  split; [reflexivity|]. split; [reflexivity|].
  split; [reflexivity|]. unfold frame_time, Qeq. cbn. lia.
Qed.

(** ** Arithmetic of the scorer *)

Lemma Qlt_bool_iff x y : Qlt_bool x y = true <-> x < y.
Proof.
  unfold Qlt_bool. rewrite negb_true_iff.
  split.
  - intros H. apply Qnot_le_lt. intros Hle.
    apply Qle_bool_iff in Hle. congruence.
  - intros H. destruct (Qle_bool y x) eqn:E; [|reflexivity].
    apply Qle_bool_iff in E. exfalso. now apply (Qlt_not_le x y).
Qed.

Lemma Qlt_bool_false x y : Qlt_bool x y = false <-> y <= x.
Proof.
  unfold Qlt_bool. rewrite negb_false_iff. apply Qle_bool_iff.
Qed.

Lemma Qlt_bool_comp x x' y y' :
  x == x' -> y == y' -> Qlt_bool x y = Qlt_bool x' y'.
Proof.
  intros Hx Hy.
  destruct (Qlt_bool x y) eqn:E1, (Qlt_bool x' y') eqn:E2; try reflexivity.
  - apply Qlt_bool_iff in E1. apply Qlt_bool_false in E2.
    rewrite Hx, Hy in E1. exfalso. now apply (Qlt_not_le x' y').
  - apply Qlt_bool_iff in E2. apply Qlt_bool_false in E1.
    rewrite Hx, Hy in E1. exfalso. now apply (Qlt_not_le x' y').
Qed.

(** The two clamps in [compute_confidence] keep a sub-score in [0.2, 1]. *)
Lemma py_clamp_bounds v : 0.2 <= py_max 0.2 (py_min 1 v) <= 1.
Proof.
  unfold py_max, py_min.
  destruct (Qlt_bool v 1) eqn:E1.
  - apply Qlt_bool_iff in E1.
    destruct (Qlt_bool 0.2 v) eqn:E2.
    + apply Qlt_bool_iff in E2. lra.
    + lra.
  - destruct (Qlt_bool 0.2 1) eqn:E2; lra.
Qed.

Lemma round_half_even_comp x y : x == y -> round_half_even x = round_half_even y.
Proof.
  intros Hxy. unfold round_half_even.
  rewrite (Qfloor_comp x y Hxy).
  rewrite (Qlt_bool_comp (x - inject_Z (Qfloor y)) (y - inject_Z (Qfloor y))
             (1 # 2) (1 # 2)) by (rewrite ?Hxy; reflexivity).
  rewrite (Qlt_bool_comp (1 # 2) (1 # 2)
             (x - inject_Z (Qfloor y)) (y - inject_Z (Qfloor y)))
    by (rewrite ?Hxy; reflexivity).
  reflexivity.
Qed.

Lemma py_round_comp x y n : x == y -> py_round x n = py_round y n.
Proof.
  intros Hxy. unfold py_round. f_equal.
  apply round_half_even_comp. now rewrite Hxy.
Qed.

(** Rounding to the nearest integer stays between integer bounds. *)
Lemma round_half_even_between (a b : Z) v :
  inject_Z a <= v <= inject_Z b ->
  (a <= round_half_even v <= b)%Z.
Proof.
  intros [Ha Hb]. unfold round_half_even.
  pose proof (Qfloor_le v) as Hfl.
  pose proof (Qlt_floor v) as Hfu.
  assert (Hfa : (a <= Qfloor v)%Z).
  { rewrite <- (Qfloor_Z a). now apply Qfloor_resp_le. }
  assert (Hfb : (Qfloor v <= b)%Z).
  { rewrite <- (Qfloor_Z b). now apply Qfloor_resp_le. }
  destruct (Qlt_bool (v - inject_Z (Qfloor v)) (1 # 2)) eqn:E1; [lia|].
  apply Qlt_bool_false in E1.
  assert (Hlt : (Qfloor v < b)%Z).
  { destruct (Z.eq_dec (Qfloor v) b) as [Heq|Hne]; [|lia].
    rewrite Heq in E1. lra. }
  destruct (Qlt_bool (1 # 2) (v - inject_Z (Qfloor v))); [lia|].
  destruct (Z.even (Qfloor v)); lia.
Qed.

Lemma py_round3_bounds x : 0.2 <= x <= 1 -> 0.2 <= py_round x 3 <= 1.
Proof.
  intros [Hlo Hhi].
  assert (H : (200 <= round_half_even (x * inject_Z (10 ^ Z.of_nat 3)) <= 1000)%Z).
  { apply round_half_even_between.
    change (inject_Z (10 ^ Z.of_nat 3)) with (1000 # 1).
    change (inject_Z 200) with (200 # 1).
    change (inject_Z 1000) with (1000 # 1). lra. }
  unfold py_round.
  set (z := round_half_even (x * inject_Z (10 ^ Z.of_nat 3))) in *.
  change (Z.to_pos (10 ^ Z.of_nat 3)) with 1000%positive.
  unfold Qle. cbn. lia.
Qed.

(** ** Means and deviations that are defined *)

Lemma np_mean_ok xs : xs <> [] -> np_mean xs = inr (mean_of xs).
Proof.
  intros Hne. unfold np_mean. apply float_div_ok.
  apply inject_Z_nonzero. destruct xs; [congruence|cbn; lia].
Qed.

Lemma np_diff_length xs : length (np_diff xs) = (length xs - 1)%nat.
Proof.
  induction xs as [|x [|y r] IH]; try reflexivity.
  cbn [np_diff length] in *. rewrite IH. lia.
Qed.

Lemma length_nonempty {A : Type} (l : list A) : (0 < length l)%nat -> l <> [].
Proof. destruct l; cbn; [lia|congruence]. Qed.

Lemma np_take_strengths_at env frames :
  Forall (fun f => (0 <= f)%Z) frames ->
  np_take env (np_mask_lt frames (Z.of_nat (length env)))
  = inr (strengths_at env frames).
Proof.
  unfold np_take, np_mask_lt, strengths_at.
  induction 1 as [|f fs Hf _ IH]; [reflexivity|].
  destruct (decide (f < Z.of_nat (length env))%Z) as [Hlt|Hge].
  - rewrite filter_cons_True by assumption.
    rewrite filter_cons_True by lia.
    destruct (lookup_lt_is_Some_2 env (Z.to_nat f)) as [x Hx]; [lia|].
    cbn [result_mapM omap list_omap]. rewrite Hx.
    rewrite <- (Z2Nat.id f) at 1 by assumption.
    rewrite (np_getitem_nat env _ x Hx). cbn [mbind result_bind].
    rewrite IH. reflexivity.
  - rewrite filter_cons_False by assumption.
    rewrite filter_cons_False by lia. exact IH.
Qed.

Lemma np_diff_gaps xs : np_diff xs = successive_gaps xs.
Proof.
  unfold successive_gaps.
  induction xs as [|x [|y r] IH]; try reflexivity.
  change (np_diff (x :: y :: r)) with ((y - x) :: np_diff (y :: r)).
  rewrite IH. reflexivity.
Qed.

Lemma foldl_Qplus_comp (f g : Q -> Q) xs a b :
  a == b -> (forall x, f x == g x) ->
  foldl Qplus a (map f xs) == foldl Qplus b (map g xs).
Proof.
  intros Hab Hfg. revert a b Hab.
  induction xs as [|x xs IH]; intros a b Hab; [exact Hab|].
  cbn. apply IH. now rewrite Hab, (Hfg x).
Qed.

Lemma mean_of_map_comp (f g : Q -> Q) xs :
  (forall x, f x == g x) -> mean_of (map f xs) == mean_of (map g xs).
Proof.
  intros Hfg. unfold mean_of, np_sum.
  rewrite (foldl_Qplus_comp f g xs 0 0) by (reflexivity || assumption).
  now rewrite !length_map.
Qed.

Lemma Qabs_square x : Qabs x ^ 2 == x ^ 2.
Proof.
  cbn. rewrite <- Qabs_Qmult. apply Qabs_pos.
  destruct (Qlt_le_dec x 0); nra.
Qed.

Lemma clamp_py v v' : v == v' -> py_max 0.2 (py_min 1 v) == clamp v' 0.2 1.
Proof.
  intros Hv. unfold py_max, py_min, clamp.
  rewrite (Qlt_bool_comp v' v 0.2 0.2) by (rewrite ?Hv; reflexivity).
  rewrite (Qlt_bool_comp 1 1 v' v) by (rewrite ?Hv; reflexivity).
  destruct (Qlt_bool v 1) eqn:E1.
  - apply Qlt_bool_iff in E1.
    destruct (Qlt_bool 0.2 v) eqn:E2.
    + apply Qlt_bool_iff in E2.
      destruct (Qlt_bool v 0.2) eqn:E3; [apply Qlt_bool_iff in E3; lra|].
      destruct (Qlt_bool 1 v) eqn:E4; [apply Qlt_bool_iff in E4; lra|].
      exact Hv.
    + apply Qlt_bool_false in E2.
      destruct (Qlt_bool v 0.2) eqn:E3; [reflexivity|].
      apply Qlt_bool_false in E3.
      destruct (Qlt_bool 1 v) eqn:E4; [apply Qlt_bool_iff in E4; lra|].
      rewrite <- Hv. lra.
  - apply Qlt_bool_false in E1.
    destruct (Qlt_bool 0.2 1) eqn:E2; [|apply Qlt_bool_false in E2; lra].
    destruct (Qlt_bool v 0.2) eqn:E3; [apply Qlt_bool_iff in E3; lra|].
    destruct (Qlt_bool 1 v) eqn:E4; [reflexivity|].
    apply Qlt_bool_false in E4. rewrite <- Hv. lra.
Qed.

Section ScorerProperties.

Variable fsqrt : Q -> Q.

Lemma np_std_ok xs :
  xs <> [] ->
  np_std fsqrt xs
  = inr (fsqrt (mean_of (map (fun x => Qabs (x - mean_of xs) ^ 2) xs))).
Proof.
  intros Hne. unfold np_std.
  rewrite np_mean_ok by assumption. cbn [mbind result_bind].
  rewrite np_mean_ok by (destruct xs; [congruence|discriminate]).
  reflexivity.
Qed.

(** The interval part never fails once there are beat times to compare. *)
Lemma interval_cv_of_total beat_times :
  exists c, interval_cv_of fsqrt beat_times = inr c.
Proof.
  unfold interval_cv_of.
  destruct (Nat.ltb_spec 1 (length beat_times)) as [Hlen|Hlen];
    [|eexists; reflexivity].
  assert (Hne : np_diff beat_times <> []).
  { apply length_nonempty. rewrite np_diff_length. lia. }
  rewrite np_mean_ok by assumption. cbn [mbind result_bind].
  destruct (Qlt_bool 0 (mean_of (np_diff beat_times))) eqn:E;
    [|eexists; reflexivity].
  apply Qlt_bool_iff in E.
  rewrite np_std_ok by assumption. cbn [mbind result_bind].
  rewrite float_div_ok by lra. eexists; reflexivity.
Qed.

(** The code path behind the three edge checks, step by step. *)
Lemma compute_confidence_combined_path env frames sr hop strengths :
  (4 <= length frames)%nat ->
  np_take env (np_mask_lt frames (Z.of_nat (length env))) = inr strengths ->
  (2 <= length strengths)%nat ->
  ~ mean_of strengths == 0 ->
  sr <> 0%Z ->
  exists std icv,
    np_std fsqrt strengths = inr std
    /\ interval_cv_of fsqrt (map (frame_time sr hop) frames) = inr icv
    /\ compute_confidence fsqrt env frames sr hop
       = inr (py_round
                (py_max 0.2 (py_min 1 (1 - std / mean_of strengths)) * 0.4
                 + py_max 0.2 (py_min 1 (1 - icv)) * 0.6) 3).
Proof.
  intros Hlen Htake Hlen2 Hmean Hsr.
  assert (Hne : strengths <> []) by (apply length_nonempty; lia).
  destruct (interval_cv_of_total (map (frame_time sr hop) frames)) as [icv Hicv].
  eexists; exists icv. split; [now apply np_std_ok|]. split; [exact Hicv|].
  unfold compute_confidence.
  destruct (Nat.ltb_spec (length frames) 4); [lia|].
  rewrite Htake. cbn [mbind result_bind].
  destruct (Nat.ltb_spec (length strengths) 2); [lia|].
  rewrite np_mean_ok by assumption. cbn [mbind result_bind].
  rewrite np_std_ok by assumption. cbn [mbind result_bind].
  destruct (Qeq_bool (mean_of strengths) 0) eqn:E;
    [apply Qeq_bool_eq in E; contradiction|].
  rewrite float_div_ok by assumption. cbn [mbind result_bind].
  rewrite frames_to_time_ok by assumption. cbn [mbind result_bind].
  rewrite Hicv. reflexivity.
Qed.

Lemma compute_confidence_few_frames env frames sr hop :
  (length frames < 4)%nat ->
  compute_confidence fsqrt env frames sr hop = inr 0.3.
Proof.
  intros Hlen. unfold compute_confidence.
  destruct (Nat.ltb_spec (length frames) 4); [reflexivity|lia].
Qed.

Lemma compute_confidence_few_strengths env frames sr hop strengths :
  (4 <= length frames)%nat ->
  np_take env (np_mask_lt frames (Z.of_nat (length env))) = inr strengths ->
  (length strengths < 2)%nat ->
  compute_confidence fsqrt env frames sr hop = inr 0.4.
Proof.
  intros Hlen Htake Hlen2. unfold compute_confidence.
  destruct (Nat.ltb_spec (length frames) 4); [lia|].
  rewrite Htake. cbn [mbind result_bind].
  destruct (Nat.ltb_spec (length strengths) 2); [reflexivity|lia].
Qed.

Lemma compute_confidence_zero_mean env frames sr hop strengths :
  (4 <= length frames)%nat ->
  np_take env (np_mask_lt frames (Z.of_nat (length env))) = inr strengths ->
  (2 <= length strengths)%nat ->
  mean_of strengths == 0 ->
  compute_confidence fsqrt env frames sr hop = inr 0.3.
Proof.
  intros Hlen Htake Hlen2 Hmean.
  assert (Hne : strengths <> []) by (apply length_nonempty; lia).
  unfold compute_confidence.
  destruct (Nat.ltb_spec (length frames) 4); [lia|].
  rewrite Htake. cbn [mbind result_bind].
  destruct (Nat.ltb_spec (length strengths) 2); [lia|].
  rewrite np_mean_ok by assumption. cbn [mbind result_bind].
  rewrite np_std_ok by assumption. cbn [mbind result_bind].
  apply Qeq_eq_bool in Hmean. rewrite Hmean. reflexivity.
Qed.

(** C4.  Fewer than four beat frames give exactly 0.3 whatever the onset
    curve holds.  The edge checks apply in order, the first match winning:
    fewer than four frames, 0.3; otherwise fewer than two frames left
    after the bounds filter, 0.4; otherwise a mean onset strength of
    exactly zero at the beat positions, 0.3.  (For the second and third
    check the frames are frame indices, that is, not negative.) *)
Theorem compute_confidence_edge_policy
    (onset_env : list Q) (beat_frames : list Z) (sr hop : Z) :
  ((length beat_frames < 4)%nat ->
   compute_confidence fsqrt onset_env beat_frames sr hop = inr 0.3)
  /\ ((4 <= length beat_frames)%nat ->
      Forall (fun f => (0 <= f)%Z) beat_frames ->
      (length (strengths_at onset_env beat_frames) < 2)%nat ->
      compute_confidence fsqrt onset_env beat_frames sr hop = inr 0.4)
  /\ ((4 <= length beat_frames)%nat ->
      Forall (fun f => (0 <= f)%Z) beat_frames ->
      (2 <= length (strengths_at onset_env beat_frames))%nat ->
      mean_of (strengths_at onset_env beat_frames) == 0 ->
      compute_confidence fsqrt onset_env beat_frames sr hop = inr 0.3).
Proof.
  split; [apply compute_confidence_few_frames|]. split.
  - intros Hlen Hpos Hfew.
    eapply compute_confidence_few_strengths; eauto.
    now apply np_take_strengths_at.
  - intros Hlen Hpos Hmany Hmean.
    eapply compute_confidence_zero_mean; eauto.
    now apply np_take_strengths_at.
Qed.

(** Every run on well-formed input ends in one of three ways. *)
Lemma compute_confidence_cases env frames sr hop :
  sr <> 0%Z ->
  Forall (fun f => (0 <= f)%Z) frames ->
  compute_confidence fsqrt env frames sr hop = inr 0.3
  \/ compute_confidence fsqrt env frames sr hop = inr 0.4
  \/ exists a b,
       compute_confidence fsqrt env frames sr hop
       = inr (py_round (py_max 0.2 (py_min 1 a) * 0.4
                        + py_max 0.2 (py_min 1 b) * 0.6) 3).
Proof.
  intros Hsr Hpos.
  destruct (Nat.lt_ge_cases (length frames) 4) as [Hlen|Hlen].
  { left. now apply compute_confidence_few_frames. }
  pose proof (np_take_strengths_at env frames Hpos) as Htake.
  set (strengths := strengths_at env frames) in *.
  destruct (Nat.lt_ge_cases (length strengths) 2) as [Hlen2|Hlen2].
  { right; left. eapply compute_confidence_few_strengths; eauto. }
  destruct (Qeq_dec (mean_of strengths) 0) as [Hmean|Hmean].
  { left. eapply compute_confidence_zero_mean; eauto. }
  destruct (compute_confidence_combined_path
              env frames sr hop strengths Hlen Htake Hlen2 Hmean Hsr)
    as (std & icv & _ & _ & Hrun).
  right; right. eexists; eexists. exact Hrun.
Qed.

(** C6.  For a sample rate that is not zero and frame indices that are
    not negative, the scorer returns a number, never an exception and
    never the outcome of a division by zero, and that number lies in
    [0.2, 1.0]; the onset curve and the frame list may be empty. *)
Theorem compute_confidence_total_and_bounded
    (onset_env : list Q) (beat_frames : list Z) (sr hop : Z) :
  sr <> 0%Z ->
  Forall (fun f => (0 <= f)%Z) beat_frames ->
  exists c : Q,
    compute_confidence fsqrt onset_env beat_frames sr hop = inr c
    /\ 0.2 <= c <= 1.
Proof.
  intros Hsr Hpos.
  destruct (compute_confidence_cases onset_env beat_frames sr hop Hsr Hpos)
    as [Hrun | [Hrun | (a & b & Hrun)]].
  - exists 0.3. split; [exact Hrun|lra].
  - exists 0.4. split; [exact Hrun|lra].
  - eexists. split; [exact Hrun|].
    apply py_round3_bounds.
    pose proof (py_clamp_bounds a). pose proof (py_clamp_bounds b). lra.
Qed.

Section ProperRoot.

(** The square root yields equal numbers on equal numbers. *)
Hypothesis fsqrt_proper : forall x y, x == y -> fsqrt x == fsqrt y.

Lemma np_std_stddev xs :
  xs <> [] ->
  exists s, np_std fsqrt xs = inr s /\ s == stddev_of fsqrt xs.
Proof.
  intros Hne. rewrite np_std_ok by assumption.
  eexists. split; [reflexivity|].
  unfold stddev_of. apply fsqrt_proper. apply mean_of_map_comp.
  intros x. apply Qabs_square.
Qed.

Lemma interval_cv_of_contract beat_times :
  exists c,
    interval_cv_of fsqrt beat_times = inr c
    /\ c == cv_interval fsqrt beat_times.
Proof.
  unfold interval_cv_of, cv_interval.
  destruct (Nat.ltb_spec 1 (length beat_times)) as [Hlen|Hlen].
  - destruct (Nat.ltb_spec (length beat_times) 2); [lia|].
    rewrite <- np_diff_gaps.
    assert (Hne : np_diff beat_times <> []).
    { apply length_nonempty. rewrite np_diff_length. lia. }
    rewrite np_mean_ok by assumption. cbn [mbind result_bind].
    destruct (Qlt_bool 0 (mean_of (np_diff beat_times))) eqn:E;
      [|eexists; split; reflexivity].
    apply Qlt_bool_iff in E.
    destruct (np_std_stddev _ Hne) as (s & Hs & Hseq).
    rewrite Hs. cbn [mbind result_bind].
    rewrite float_div_ok by lra.
    eexists; split; [reflexivity|]. unfold cv_of. now rewrite Hseq.
  - destruct (Nat.ltb_spec (length beat_times) 2); [|lia].
    eexists; split; reflexivity.
Qed.

(** C3.  On an input that passes the three edge checks (at least four
    frames, at least two strengths after the bounds filter, a mean
    strength that is not zero), the scorer returns
    round(0.4 * clamp(1 - cv_strength, 0.2, 1.0)
          + 0.6 * clamp(1 - cv_interval, 0.2, 1.0), 3),
    with cv_strength the stddev/mean of the onset strengths at the
    bounds-filtered beat positions and cv_interval the stddev/mean of the
    successive gaps of the beat times (1.0 with fewer than two beat times
    or a mean gap that is not positive). *)
Theorem compute_confidence_formula
    (onset_env : list Q) (beat_frames : list Z) (sr hop : Z) :
  sr <> 0%Z ->
  Forall (fun f => (0 <= f)%Z) beat_frames ->
  (4 <= length beat_frames)%nat ->
  (2 <= length (strengths_at onset_env beat_frames))%nat ->
  ~ mean_of (strengths_at onset_env beat_frames) == 0 ->
  compute_confidence fsqrt onset_env beat_frames sr hop
  = inr (combined_confidence fsqrt
           (strengths_at onset_env beat_frames)
           (map (frame_time sr hop) beat_frames)).
Proof.
  intros Hsr Hpos Hlen Hlen2 Hmean.
  pose proof (np_take_strengths_at onset_env beat_frames Hpos) as Htake.
  set (strengths := strengths_at onset_env beat_frames) in *.
  set (times := map (frame_time sr hop) beat_frames).
  destruct (compute_confidence_combined_path
              onset_env beat_frames sr hop strengths Hlen Htake Hlen2 Hmean Hsr)
    as (std & icv & Hstd & Hicv & Hrun).
  rewrite Hrun. f_equal. unfold combined_confidence.
  apply py_round_comp.
  assert (Hne : strengths <> []) by (apply length_nonempty; lia).
  destruct (np_std_stddev strengths Hne) as (std' & Hstd' & Hstd_eq).
  assert (std' = std) as -> by congruence.
  destruct (interval_cv_of_contract times) as (icv' & Hicv' & Hicv_eq).
  assert (icv' = icv) as -> by (fold times in Hicv; congruence).
  rewrite (clamp_py (1 - std / mean_of strengths) (1 - cv_of fsqrt strengths))
    by (unfold cv_of; now rewrite Hstd_eq).
  rewrite (clamp_py (1 - icv) (1 - cv_interval fsqrt times))
    by (now rewrite Hicv_eq).
  ring.
Qed.

Lemma successive_gaps_lookup (times : list Q) i a b :
  times !! i = Some a -> times !! S i = Some b ->
  successive_gaps times !! i = Some (b - a).
Proof.
  intros Ha Hb. unfold successive_gaps.
  rewrite lookup_zip_with, lookup_drop, Ha.
  change (1 + i)%nat with (S i). rewrite Hb. reflexivity.
Qed.

(** C10.  In the combined path the interval sub-score is computed from
    all beat frames, those at or beyond the end of the onset curve
    included.  Every pair of neighbours in the unfiltered frame list
    contributes the gap between their two times; cv_interval is the
    stddev/mean of exactly these gaps (1.0 when their mean is not
    positive) and enters the score clamped and weighted 0.6, while the
    strength sub-score uses the bounds-filtered frames only. *)
Theorem interval_score_uses_all_frames
    (onset_env : list Q) (beat_frames : list Z) (sr hop : Z) :
  sr <> 0%Z ->
  Forall (fun f => (0 <= f)%Z) beat_frames ->
  (4 <= length beat_frames)%nat ->
  (2 <= length (strengths_at onset_env beat_frames))%nat ->
  ~ mean_of (strengths_at onset_env beat_frames) == 0 ->
  let gaps := successive_gaps (map (frame_time sr hop) beat_frames) in
  length gaps = (length beat_frames - 1)%nat
  /\ (forall i f g,
         beat_frames !! i = Some f -> beat_frames !! S i = Some g ->
         gaps !! i = Some (frame_time sr hop g - frame_time sr hop f))
  /\ exists std cv_int,
       np_std fsqrt (strengths_at onset_env beat_frames) = inr std
       /\ cv_int == (if Qlt_bool 0 (mean_of gaps)
                     then stddev_of fsqrt gaps / mean_of gaps
                     else 1)
       /\ compute_confidence fsqrt onset_env beat_frames sr hop
          = inr (py_round
                   (py_max 0.2
                      (py_min 1
                         (1 - std
                              / mean_of (strengths_at onset_env beat_frames)))
                    * 0.4
                    + py_max 0.2 (py_min 1 (1 - cv_int)) * 0.6) 3).
Proof.
  intros Hsr Hpos Hlen Hlen2 Hmean gaps.
  set (times := map (frame_time sr hop) beat_frames) in *.
  split; [|split].
  - unfold gaps. rewrite <- np_diff_gaps, np_diff_length.
    unfold times. now rewrite length_map.
  - intros i f g Hf Hg. apply successive_gaps_lookup; unfold times;
      rewrite list_lookup_fmap; [rewrite Hf|rewrite Hg]; reflexivity.
  - pose proof (np_take_strengths_at onset_env beat_frames Hpos) as Htake.
    destruct (compute_confidence_combined_path
                onset_env beat_frames sr hop _ Hlen Htake Hlen2 Hmean Hsr)
      as (std & icv & Hstd & Hicv & Hrun).
    fold times in Hicv.
    destruct (interval_cv_of_contract times) as (icv' & Hicv' & Heq).
    assert (icv' = icv) as -> by congruence.
    exists std, icv. split; [exact Hstd|]. split; [|exact Hrun].
    rewrite Heq. unfold cv_interval.
    destruct (Nat.ltb_spec (length times) 2) as [Hshort|_].
    { unfold times in Hshort. rewrite length_map in Hshort. lia. }
    fold gaps. unfold cv_of. reflexivity.
Qed.

End ProperRoot.

(** ** The endpoint *)

Ltac traced_step :=
  cbn [mbind traced_bind lib_call pure_step mret traced_ret app].

Lemma estimate_downbeats_total beats bpm sr hop :
  sr <> 0%Z -> exists downs, estimate_downbeats beats bpm sr hop = inr downs.
Proof.
  intros Hsr. destruct (Nat.lt_ge_cases (length beats) 4) as [Hlen|Hlen].
  - unfold estimate_downbeats.
    destruct (Nat.ltb_spec (length beats) 4); [|lia]. eexists; reflexivity.
  - eexists. now apply estimate_downbeats_long.
Qed.

Section Endpoint.

Variable fs : FileSystem.
Variable librosa : Librosa.
Variable request : AnalyzeRequest.

Let path := audio_path request.
Let accepted := str_in (str_lower (path_suffix fs path)) accepted_suffixes.



(** C8.  Both shapes of the tempo that [beat_track] may return, a scalar
    and a one-element array, are brought to the same number; the response
    reports it rounded to 2 decimals, the beat and downbeat times rounded
    to 4 decimals and the duration rounded to 3 decimals. *)
Theorem analyze_audio_normalizes_tempo
    (y env : list Q) (sr : Z) (dur t : Q) (tempo : Tempo) (frames : list Z) :
  path_exists fs path = true -> accepted = true ->
  librosa_load librosa path 22050 = inr (y, sr) ->
  librosa_get_duration librosa y sr = inr dur ->
  librosa_onset_strength librosa y sr 512 = inr env ->
  librosa_beat_track librosa env sr 512 120 = inr (tempo, frames) ->
  tempo = TempoScalar t \/ tempo = TempoArray [t] ->
  sr <> 0%Z ->
  Forall (fun f => (0 <= f)%Z) frames ->
  exists conf downs,
    compute_confidence fsqrt env frames sr 512 = inr conf
    /\ estimate_downbeats frames t sr 512 = inr downs
    /\ analyze_audio fsqrt fs librosa request
       = ([Load; GetDuration; OnsetStrength; BeatTrack],
          inr {| bpm := py_round t 2;
                 confidence := conf;
                 beats := map (fun x => py_round x 4)
                              (map (frame_time sr 512) frames);
                 downbeats := map (fun x => py_round x 4) downs;
                 duration := py_round dur 3 |}).
Proof.
  intros Hex Hacc Hload Hdur Honset Hbeat Htempo Hsr Hpos.
  assert (exists conf, compute_confidence fsqrt env frames sr 512 = inr conf)
    as (conf & Hconf).
  { destruct (compute_confidence_cases env frames sr 512 Hsr Hpos)
      as [Hrun | [Hrun | (a & b & Hrun)]]; eexists; exact Hrun. }
  destruct (estimate_downbeats_total frames t sr 512 Hsr) as (downs & Hdowns).
  exists conf, downs. split; [exact Hconf|]. split; [exact Hdowns|].
  unfold analyze_audio. fold path. rewrite Hex. cbn [negb].
  fold accepted. rewrite Hacc. cbn [negb].
  rewrite Hload. traced_step. rewrite Hdur. traced_step.
  rewrite Honset. traced_step. rewrite Hbeat. traced_step.
  assert (Hbpm : match tempo with
                 | TempoScalar t0 => mret t0
                 | TempoArray ts => np_getitem ts 0
                 end = inr t) by (destruct Htempo as [-> | ->]; reflexivity).
  rewrite Hbpm. traced_step.
  rewrite frames_to_time_ok by assumption. traced_step.
  rewrite Hconf. traced_step. rewrite Hdowns. reflexivity.
Qed.

End Endpoint.

End ScorerProperties.

(** ** Runs on concrete inputs *)

Lemma sqrt12_proper x y : x == y -> sqrt12 x == sqrt12 y.
Proof.
  intros Hxy. unfold sqrt12.
  rewrite (Qfloor_comp (x * inject_Z (10 ^ 12 * 10 ^ 12))
                       (y * inject_Z (10 ^ 12 * 10 ^ 12)))
    by (now rewrite Hxy).
  reflexivity.
Qed.

Lemma compute_confidence_formula_witness :
  compute_confidence sqrt12 [1; 2; 3; 4; 5; 6; 7; 8; 9] [1; 2; 4; 8]%Z 22050 512
  = inr (combined_confidence sqrt12
           (strengths_at [1; 2; 3; 4; 5; 6; 7; 8; 9] [1; 2; 4; 8]%Z)
           (map (frame_time 22050 512) [1; 2; 4; 8]%Z)).
Proof.
  apply (compute_confidence_formula sqrt12 sqrt12_proper).
  - lia.
  - repeat constructor; lia.
  - simpl. lia.
  - vm_compute. lia.
  - vm_compute. lia.
Defined.

Lemma compute_confidence_edge_policy_witness :
  compute_confidence sqrt12 [1; 2; 3] [0; 1; 2]%Z 22050 512 = inr 0.3
  /\ compute_confidence sqrt12 [] [5; 6; 7; 8]%Z 22050 512 = inr 0.4
  /\ compute_confidence sqrt12 [0; 0; 0; 0; 0] [0; 1; 2; 3]%Z 22050 512
     = inr 0.3.
Proof.
  split; [|split].
  - apply (proj1 (compute_confidence_edge_policy
                    sqrt12 [1; 2; 3] [0; 1; 2]%Z 22050 512)).
    simpl. lia.
  - apply (proj1 (proj2 (compute_confidence_edge_policy
                           sqrt12 [] [5; 6; 7; 8]%Z 22050 512))).
    + simpl. lia.
    + repeat constructor; lia.
    + vm_compute. lia.
  - apply (proj2 (proj2 (compute_confidence_edge_policy
                           sqrt12 [0; 0; 0; 0; 0] [0; 1; 2; 3]%Z 22050 512))).
    + simpl. lia.
    + repeat constructor; lia.
    + vm_compute. lia.
    + reflexivity.
Defined.

Lemma compute_confidence_total_and_bounded_witness :
  exists c : Q,
    compute_confidence sqrt12 [1; 2; 3; 4; 5; 6; 7; 8; 9] [1; 2; 4; 8; 20]%Z
      22050 512 = inr c
    /\ 0.2 <= c <= 1.
Proof.
  apply (compute_confidence_total_and_bounded sqrt12).
  - lia.
  - repeat constructor; lia.
Defined.

Lemma interval_score_uses_all_frames_witness :
  let gaps :=
    successive_gaps (map (frame_time 22050 512) [1; 2; 4; 8; 20]%Z) in
  length gaps = 4%nat
  /\ gaps !! 3%nat
     = Some (frame_time 22050 512 20 - frame_time 22050 512 8)
  /\ exists std cv_int,
       np_std sqrt12
         (strengths_at [1; 2; 3; 4; 5; 6; 7; 8; 9] [1; 2; 4; 8; 20]%Z)
       = inr std
       /\ cv_int == (if Qlt_bool 0 (mean_of gaps)
                     then stddev_of sqrt12 gaps / mean_of gaps
                     else 1)
       /\ compute_confidence sqrt12 [1; 2; 3; 4; 5; 6; 7; 8; 9]
            [1; 2; 4; 8; 20]%Z 22050 512
          = inr (py_round
                   (py_max 0.2
                      (py_min 1
                         (1 - std
                              / mean_of
                                  (strengths_at [1; 2; 3; 4; 5; 6; 7; 8; 9]
                                                [1; 2; 4; 8; 20]%Z)))
                    * 0.4
                    + py_max 0.2 (py_min 1 (1 - cv_int)) * 0.6) 3).
Proof.
  destruct (interval_score_uses_all_frames sqrt12 sqrt12_proper
              [1; 2; 3; 4; 5; 6; 7; 8; 9] [1; 2; 4; 8; 20]%Z 22050 512)
    as (Hlen & Hgap & Hrun).
  - lia.
  - repeat constructor; lia.
  - simpl. lia.
  - vm_compute. lia.
  - vm_compute. lia.
  - split; [exact Hlen|]. split; [|exact Hrun].
    apply (Hgap 3%nat 8%Z 20%Z); reflexivity.
Defined.

(** A beat frame beyond the end of the onset curve leaves the strengths
    untouched and still moves the score, through the interval part. *)
Example out_of_bounds_frame_moves_score :
  strengths_at [1; 2; 3; 4; 5; 6; 7; 8; 9] [1; 2; 4; 8; 20]%Z
  = strengths_at [1; 2; 3; 4; 5; 6; 7; 8; 9] [1; 2; 4; 8]%Z
  /\ compute_confidence sqrt12 [1; 2; 3; 4; 5; 6; 7; 8; 9] [1; 2; 4; 8; 20]%Z
       22050 512 = inr 0.294
  /\ compute_confidence sqrt12 [1; 2; 3; 4; 5; 6; 7; 8; 9] [1; 2; 4; 8]%Z
       22050 512 = inr 0.454.
Proof. repeat split; vm_compute; reflexivity. Qed.

(** Scenario C of the contract: eight equally spaced beats on a flat onset
    curve score 1. *)
Example steady_grid_scores_one :
  compute_confidence sqrt12 (repeat 1 30) [3; 6; 9; 12; 15; 18; 21; 24]%Z
    22050 512 = inr 1.000.
Proof. vm_compute. reflexivity. Qed.

(** A frame index below [-len(onset_env)] makes the indexing raise. *)
Example negative_frame_raises :
  compute_confidence sqrt12 [1; 1] [-5; 0; 1; 1]%Z 22050 512
  = inl (IndexError (-5) 2).
Proof. vm_compute. reflexivity. Qed.

Lemma sublist_Qsubseq (l1 l2 : list Q) : sublist l1 l2 -> Qsubseq l1 l2.
Proof.
  induction 1.
  - constructor.
  - now apply Qsubseq_cons.
  - now apply Qsubseq_skip.
Qed.

(** With four or more beat frames the rounded downbeats are a subsequence
    of the rounded beats. *)
Lemma long_downbeats_subsequence frames bpm sr hop downs :
  (4 <= length frames)%nat -> sr <> 0%Z ->
  estimate_downbeats frames bpm sr hop = inr downs ->
  Qsubseq (map (fun t => py_round t 4) downs)
          (map (fun t => py_round t 4) (map (frame_time sr hop) frames)).
Proof.
  intros Hlen Hsr Hrun.
  rewrite estimate_downbeats_long in Hrun by assumption.
  injection Hrun as <-.
  apply sublist_Qsubseq. apply fmap_sublist. apply every_fourth_sublist.
Qed.

(** C2.  One detected beat at frame 10 (22050 Hz, hop 512): the response
    lists the beat at 0.2322 s and the downbeat at 10, the frame index, so
    the downbeats are not a subsequence of the beats. *)
Theorem analyze_audio_single_beat_downbeat_not_a_beat :
  exists resp,
    analyze_audio sqrt12 (fs_with_suffix ".wav")
      (librosa_stub [0; 0; 0] 1 [1; 1; 1; 1; 1; 1; 1; 1; 1; 1; 1; 1]
                    (TempoScalar 120) [10%Z])
      {| audio_path := "song.wav" |}
    = ([Load; GetDuration; OnsetStrength; BeatTrack], inr resp)
    /\ beats resp = [0.2322]
    /\ downbeats resp = [10.0000]
    /\ confidence resp = 0.3
    /\ ~ Qsubseq (downbeats resp) (beats resp).
Proof.
  eexists. split; [vm_compute; reflexivity|]. cbn [beats downbeats confidence].
  repeat split.
  intros H. inversion H as [|y l1 l2 Hskip|x y l1 l2 Heq Hrest]; subst.
  - inversion Hskip.
  - vm_compute in Heq. discriminate Heq.
Qed.


Lemma analyze_audio_normalizes_tempo_witness :
  exists conf downs,
    compute_confidence sqrt12 [1; 2; 3; 4; 5; 6; 7; 8; 9] [1; 2; 4; 8]%Z
      22050 512 = inr conf
    /\ estimate_downbeats [1; 2; 4; 8]%Z (1234567 # 10000) 22050 512
       = inr downs
    /\ analyze_audio sqrt12 (fs_with_suffix ".mp3")
         (librosa_stub [0; 0; 0] (7 # 3) [1; 2; 3; 4; 5; 6; 7; 8; 9]
                       (TempoArray [1234567 # 10000]) [1; 2; 4; 8]%Z)
         {| audio_path := "song.mp3" |}
       = ([Load; GetDuration; OnsetStrength; BeatTrack],
          inr {| bpm := py_round (1234567 # 10000) 2;
                 confidence := conf;
                 beats := map (fun x => py_round x 4)
                              (map (frame_time 22050 512) [1; 2; 4; 8]%Z);
                 downbeats := map (fun x => py_round x 4) downs;
                 duration := py_round (7 # 3) 3 |}).
Proof.
  apply (analyze_audio_normalizes_tempo sqrt12 (fs_with_suffix ".mp3")
           (librosa_stub [0; 0; 0] (7 # 3) [1; 2; 3; 4; 5; 6; 7; 8; 9]
                         (TempoArray [1234567 # 10000]) [1; 2; 4; 8]%Z)
           {| audio_path := "song.mp3" |}
           [0; 0; 0] [1; 2; 3; 4; 5; 6; 7; 8; 9] 22050 (7 # 3)
           (1234567 # 10000) (TempoArray [1234567 # 10000]) [1; 2; 4; 8]%Z);
    try reflexivity.
  - right. reflexivity.
  - lia.
  - repeat constructor; lia.
Defined.

(** Both tempo shapes give the same response. *)
Example tempo_shapes_agree :
  analyze_audio sqrt12 (fs_with_suffix ".mp3")
    (librosa_stub [0; 0; 0] (7 # 3) [1; 2; 3; 4; 5; 6; 7; 8; 9]
                  (TempoArray [1234567 # 10000]) [1; 2; 4; 8]%Z)
    {| audio_path := "song.mp3" |}
  = analyze_audio sqrt12 (fs_with_suffix ".mp3")
      (librosa_stub [0; 0; 0] (7 # 3) [1; 2; 3; 4; 5; 6; 7; 8; 9]
                    (TempoScalar (1234567 # 10000)) [1; 2; 4; 8]%Z)
      {| audio_path := "song.mp3" |}.
Proof. vm_compute. reflexivity. Qed.

(** An empty tempo array is one of the failures the [try] block turns
    into a 500. *)
Example empty_tempo_array_is_analysis_failure :
  analyze_audio sqrt12 (fs_with_suffix ".mp3")
    (librosa_stub [0; 0; 0] 1 [1; 2; 3] (TempoArray []) [1; 2; 4; 8]%Z)
    {| audio_path := "song.mp3" |}
  = ([Load; GetDuration; OnsetStrength; BeatTrack],
     inl {| status_code := 500; detail := AnalysisFailed (IndexError 0 0) |}).
Proof. vm_compute. reflexivity. Qed.

(** * Further properties of the beat service *)

(** ** Rounding *)

Lemma round_half_even_range v :
  (Qfloor v <= round_half_even v <= Qfloor v + 1)%Z.
Proof.
  unfold round_half_even.
  destruct (Qlt_bool (v - inject_Z (Qfloor v)) (1 # 2)); [lia|].
  destruct (Qlt_bool (1 # 2) (v - inject_Z (Qfloor v))); [lia|].
  destruct (Z.even (Qfloor v)); lia.
Qed.

Lemma round_half_even_mono x y :
  x <= y -> (round_half_even x <= round_half_even y)%Z.
Proof.
  intros Hxy.
  pose proof (Qfloor_resp_le x y Hxy) as Hfl.
  pose proof (round_half_even_range x) as Hx.
  pose proof (round_half_even_range y) as Hy.
  destruct (Z.eq_dec (Qfloor x) (Qfloor y)) as [Heq|Hne]; [|lia].
  clear Hx Hy. unfold round_half_even. rewrite Heq.
  destruct (Qlt_bool (x - inject_Z (Qfloor y)) (1 # 2)) eqn:X1.
  { destruct (Qlt_bool (y - inject_Z (Qfloor y)) (1 # 2)); [lia|].
    destruct (Qlt_bool (1 # 2) (y - inject_Z (Qfloor y))); [lia|].
    destruct (Z.even (Qfloor y)); lia. }
  apply Qlt_bool_false in X1.
  destruct (Qlt_bool (y - inject_Z (Qfloor y)) (1 # 2)) eqn:Y1;
    [apply Qlt_bool_iff in Y1; lra|].
  destruct (Qlt_bool (1 # 2) (x - inject_Z (Qfloor y))) eqn:X2.
  { apply Qlt_bool_iff in X2.
    destruct (Qlt_bool (1 # 2) (y - inject_Z (Qfloor y))) eqn:Y2; [lia|].
    apply Qlt_bool_false in Y2. lra. }
  destruct (Qlt_bool (1 # 2) (y - inject_Z (Qfloor y))); [|lia].
  destruct (Z.even (Qfloor y)); lia.
Qed.

Lemma round_half_even_error v :
  v - (1 # 2) <= inject_Z (round_half_even v) <= v + (1 # 2).
Proof.
  pose proof (Qfloor_le v) as Hlo. pose proof (Qlt_floor v) as Hhi.
  rewrite inject_Z_plus in Hhi. change (inject_Z 1) with 1 in Hhi.
  unfold round_half_even.
  destruct (Qlt_bool (v - inject_Z (Qfloor v)) (1 # 2)) eqn:E1.
  { apply Qlt_bool_iff in E1. lra. }
  apply Qlt_bool_false in E1.
  destruct (Qlt_bool (1 # 2) (v - inject_Z (Qfloor v))) eqn:E2.
  { rewrite inject_Z_plus. change (inject_Z 1) with 1. lra. }
  apply Qlt_bool_false in E2.
  destruct (Z.even (Qfloor v)); [lra|].
  rewrite inject_Z_plus. change (inject_Z 1) with 1. lra.
Qed.

Lemma pow10_pos n : (0 < 10 ^ Z.of_nat n)%Z.
Proof. apply Z.pow_pos_nonneg; lia. Qed.

(** [round] never reorders two numbers. *)
Lemma py_round_mono x y n : x <= y -> py_round x n <= py_round y n.
Proof.
  intros Hxy. unfold py_round, Qle. cbn [Qnum Qden].
  apply Z.mul_le_mono_nonneg_r; [lia|].
  apply round_half_even_mono.
  apply Qmult_le_compat_r; [exact Hxy|].
  pose proof (pow10_pos n). unfold Qle. cbn. lia.
Qed.

(** [round(x, n)] as a quotient. *)
Lemma py_round_quotient x n :
  py_round x n
  == inject_Z (round_half_even (x * inject_Z (10 ^ Z.of_nat n)))
     / inject_Z (10 ^ Z.of_nat n).
Proof.
  unfold py_round. rewrite Qmake_Qdiv.
  rewrite Z2Pos.id by apply pow10_pos. reflexivity.
Qed.

Lemma py_round2_error x : x - (1 # 200) <= py_round x 2 <= x + (1 # 200).
Proof.
  rewrite py_round_quotient.
  pose proof (round_half_even_error (x * inject_Z (10 ^ Z.of_nat 2))) as H.
  change (inject_Z (10 ^ Z.of_nat 2)) with (100 # 1) in *.
  set (z := inject_Z (round_half_even (x * (100 # 1)))) in *.
  unfold Qdiv. change (/ (100 # 1)) with (1 # 100). lra.
Qed.

Lemma py_round3_error x : x - (1 # 2000) <= py_round x 3 <= x + (1 # 2000).
Proof.
  rewrite py_round_quotient.
  pose proof (round_half_even_error (x * inject_Z (10 ^ Z.of_nat 3))) as H.
  change (inject_Z (10 ^ Z.of_nat 3)) with (1000 # 1) in *.
  set (z := inject_Z (round_half_even (x * (1000 # 1)))) in *.
  unfold Qdiv. change (/ (1000 # 1)) with (1 # 1000). lra.
Qed.

Lemma py_round4_error x : x - (1 # 20000) <= py_round x 4 <= x + (1 # 20000).
Proof.
  rewrite py_round_quotient.
  pose proof (round_half_even_error (x * inject_Z (10 ^ Z.of_nat 4))) as H.
  change (inject_Z (10 ^ Z.of_nat 4)) with (10000 # 1) in *.
  set (z := inject_Z (round_half_even (x * (10000 # 1)))) in *.
  unfold Qdiv. change (/ (10000 # 1)) with (1 # 10000). lra.
Qed.

(** ** Frame times *)

Lemma frames_to_time_inv frames sr hop times :
  frames_to_time frames sr hop = inr times ->
  times = map (frame_time sr hop) frames.
Proof.
  unfold frames_to_time. revert times.
  induction frames as [|f fs IH]; intros times; cbn [result_mapM map].
  - intros [= <-]. reflexivity.
  - destruct (float_div (inject_Z (f * hop)) (inject_Z sr)) as [e|t] eqn:E;
      cbn [mbind result_bind]; [discriminate|].
    destruct (result_mapM _ fs) as [e|ts]; cbn [mbind result_bind];
      [discriminate|].
    intros [= <-]. f_equal; [|now apply IH].
    unfold float_div in E. destruct (Qeq_bool (inject_Z sr) 0); [discriminate|].
    now injection E as <-.
Qed.

Lemma frame_time_mono sr hop f1 f2 :
  (0 < sr)%Z -> (0 <= hop)%Z -> (f1 <= f2)%Z ->
  frame_time sr hop f1 <= frame_time sr hop f2.
Proof.
  intros Hsr Hhop Hf. unfold frame_time, Qdiv.
  apply Qmult_le_compat_r.
  - rewrite <- Zle_Qle. now apply Z.mul_le_mono_nonneg_r.
  - apply Qinv_le_0_compat. change 0 with (inject_Z 0).
    rewrite <- Zle_Qle. lia.
Qed.

(** ** Indexing and its failures *)

Lemma np_getitem_in_range a i :
  (- Z.of_nat (length a) <= i < Z.of_nat (length a))%Z ->
  exists x, np_getitem a i = inr x.
Proof.
  intros Hi. unfold np_getitem.
  set (j := if (i <? 0)%Z then (i + Z.of_nat (length a))%Z else i).
  assert (Hj : (0 <= j < Z.of_nat (length a))%Z).
  { unfold j. destruct (Z.ltb_spec i 0); lia. }
  destruct (Z.leb_spec 0 j); [|lia].
  destruct (Z.ltb_spec j (Z.of_nat (length a))); [|lia].
  cbn [andb].
  destruct (lookup_lt_is_Some_2 a (Z.to_nat j)) as [x Hx]; [lia|].
  rewrite Hx. now exists x.
Qed.

Lemma np_getitem_error a i e :
  np_getitem a i = inl e ->
  e = IndexError i (length a)
  /\ ((i < - Z.of_nat (length a))%Z \/ (Z.of_nat (length a) <= i)%Z).
Proof.
  intros H.
  destruct (Z_lt_le_dec i (- Z.of_nat (length a))) as [Hlo|Hlo].
  - unfold np_getitem in H.
    destruct (Z.ltb_spec i 0); [|lia].
    destruct (Z.leb_spec 0 (i + Z.of_nat (length a))); [lia|].
    cbn [andb] in H. injection H as <-. split; [reflexivity|now left].
  - destruct (Z_lt_le_dec i (Z.of_nat (length a))) as [Hhi|Hhi].
    + destruct (np_getitem_in_range a i) as [x Hx]; [lia|]. congruence.
    + unfold np_getitem in H.
      destruct (Z.ltb_spec i 0); [lia|].
      destruct (Z.leb_spec 0 i); [|lia].
      destruct (Z.ltb_spec i (Z.of_nat (length a))); [lia|].
      cbn [andb] in H. injection H as <-. split; [reflexivity|now right].
Qed.

Lemma np_getitem_below a i :
  (i < - Z.of_nat (length a))%Z ->
  np_getitem a i = inl (IndexError i (length a)).
Proof.
  intros Hlo. unfold np_getitem.
  destruct (Z.ltb_spec i 0); [|lia].
  destruct (Z.leb_spec 0 (i + Z.of_nat (length a))); [lia|]. reflexivity.
Qed.

Lemma result_mapM_inl {A B : Type} (f : A -> result B) xs e :
  result_mapM f xs = inl e -> exists x, x ∈ xs /\ f x = inl e.
Proof.
  induction xs as [|x xs IH]; cbn [result_mapM]; [discriminate|].
  destruct (f x) as [e'|y] eqn:E; cbn [mbind result_bind].
  - intros [= <-]. exists x. split; [left|exact E].
  - destruct (result_mapM f xs) as [e'|ys]; cbn [mbind result_bind];
      [|discriminate].
    intros [= <-]. destruct (IH eq_refl) as (z & Hz & Hfz).
    exists z. split; [now right|exact Hfz].
Qed.

Lemma result_mapM_inr {A B : Type} (f : A -> result B) xs ys :
  result_mapM f xs = inr ys -> forall x, x ∈ xs -> exists y, f x = inr y.
Proof.
  revert ys. induction xs as [|x xs IH]; intros ys; cbn [result_mapM].
  - intros _ z Hz. inversion Hz.
  - destruct (f x) as [e|y] eqn:E; cbn [mbind result_bind]; [discriminate|].
    destruct (result_mapM f xs) as [e|ys'] eqn:E'; cbn [mbind result_bind];
      [discriminate|].
    intros _ z Hz. apply elem_of_cons in Hz. destruct Hz as [->|Hz].
    + now exists y.
    + now apply (IH ys').
Qed.

(** The strengths can be read exactly when no beat frame lies below
    [-len(onset_env)]; the mask has already removed the frames at or
    beyond the end. *)
Lemma np_take_masked_error env frames e :
  np_take env (np_mask_lt frames (Z.of_nat (length env))) = inl e ->
  exists f, f ∈ frames /\ (f < - Z.of_nat (length env))%Z
            /\ e = IndexError f (length env).
Proof.
  intros H. apply result_mapM_inl in H. destruct H as (f & Hf & Hget).
  apply list_elem_of_filter in Hf. destruct Hf as [Hlt Hin].
  apply np_getitem_error in Hget. destruct Hget as [-> [Hlo|Hhi]]; [|lia].
  now exists f.
Qed.

Lemma np_take_masked_ok env frames strengths :
  np_take env (np_mask_lt frames (Z.of_nat (length env))) = inr strengths ->
  Forall (fun f => (- Z.of_nat (length env) <= f)%Z) frames.
Proof.
  intros H. apply Forall_forall. intros f Hf.
  destruct (Z_lt_le_dec f (- Z.of_nat (length env))) as [Hlo|Hlo]; [|exact Hlo].
  assert (Hm : f ∈ np_mask_lt frames (Z.of_nat (length env))).
  { apply list_elem_of_filter. split; [lia|exact Hf]. }
  destruct (result_mapM_inr _ _ _ H f Hm) as [y Hy].
  rewrite np_getitem_below in Hy by assumption. discriminate.
Qed.

(** ** More on the confidence scorer *)

Section ScorerFacts.

Variable fsqrt : Q -> Q.

(** Whatever the input, a run ends with one of the two constants, with
    the rounded combination of two clamped sub-scores, or with an
    exception. *)
Lemma compute_confidence_outcome env frames sr hop :
  compute_confidence fsqrt env frames sr hop = inr 0.3
  \/ compute_confidence fsqrt env frames sr hop = inr 0.4
  \/ (exists a b,
        compute_confidence fsqrt env frames sr hop
        = inr (py_round (py_max 0.2 (py_min 1 a) * 0.4
                         + py_max 0.2 (py_min 1 b) * 0.6) 3))
  \/ (exists e, compute_confidence fsqrt env frames sr hop = inl e).
Proof.
  unfold compute_confidence.
  destruct (length frames <? 4)%nat; [now left|].
  destruct (np_take env _) as [e|strengths]; cbn [mbind result_bind];
    [do 3 right; now exists e|].
  destruct (length strengths <? 2)%nat; [right; now left|].
  destruct (np_mean strengths) as [e|m]; cbn [mbind result_bind];
    [do 3 right; now exists e|].
  destruct (np_std fsqrt strengths) as [e|s]; cbn [mbind result_bind];
    [do 3 right; now exists e|].
  destruct (Qeq_bool m 0); [now left|].
  destruct (float_div s m) as [e|cv]; cbn [mbind result_bind];
    [do 3 right; now exists e|].
  destruct (frames_to_time frames sr hop) as [e|times];
    cbn [mbind result_bind]; [do 3 right; now exists e|].
  destruct (interval_cv_of fsqrt times) as [e|icv]; cbn [mbind result_bind];
    [do 3 right; now exists e|].
  right; right; left. eexists; eexists; reflexivity.
Qed.

(** Every value the scorer returns is a whole number of thousandths
    between 0.200 and 1.000; this needs no assumption on the frames or on
    the sample rate. *)
Theorem compute_confidence_value_is_thousandths
    (onset_env : list Q) (beat_frames : list Z) (sr hop : Z) (c : Q) :
  compute_confidence fsqrt onset_env beat_frames sr hop = inr c ->
  exists k : Z, (200 <= k <= 1000)%Z /\ c == k # 1000.
Proof.
  intros Hrun.
  destruct (compute_confidence_outcome onset_env beat_frames sr hop)
    as [H | [H | [(a & b & H) | (e & H)]]];
    rewrite H in Hrun; try discriminate; injection Hrun as <-.
  - exists 300%Z. split; [lia|reflexivity].
  - exists 400%Z. split; [lia|reflexivity].
  - eexists. split; [|unfold py_round; reflexivity].
    apply round_half_even_between.
    pose proof (py_clamp_bounds a). pose proof (py_clamp_bounds b).
    change (inject_Z (10 ^ Z.of_nat 3)) with (1000 # 1).
    change (inject_Z 200) with (200 # 1).
    change (inject_Z 1000) with (1000 # 1). lra.
Qed.

Lemma compute_confidence_take_fails env frames sr hop e :
  (4 <= length frames)%nat ->
  np_take env (np_mask_lt frames (Z.of_nat (length env))) = inl e ->
  compute_confidence fsqrt env frames sr hop = inl e.
Proof.
  intros Hlen Htake. unfold compute_confidence.
  destruct (Nat.ltb_spec (length frames) 4); [lia|].
  rewrite Htake. reflexivity.
Qed.

Lemma compute_confidence_after_take env frames sr hop strengths :
  sr <> 0%Z ->
  np_take env (np_mask_lt frames (Z.of_nat (length env))) = inr strengths ->
  exists c, compute_confidence fsqrt env frames sr hop = inr c.
Proof.
  intros Hsr Htake.
  destruct (Nat.lt_ge_cases (length frames) 4) as [Hlen|Hlen].
  { eexists. now apply compute_confidence_few_frames. }
  destruct (Nat.lt_ge_cases (length strengths) 2) as [Hlen2|Hlen2].
  { eexists. eapply compute_confidence_few_strengths; eauto. }
  destruct (Qeq_dec (mean_of strengths) 0) as [Hmean|Hmean].
  { eexists. eapply compute_confidence_zero_mean; eauto. }
  destruct (compute_confidence_combined_path
              fsqrt env frames sr hop strengths Hlen Htake Hlen2 Hmean Hsr)
    as (std & icv & _ & _ & Hrun).
  eexists. exact Hrun.
Qed.

(** For a sample rate that is not zero the scorer raises exactly when it
    has at least four beat frames and one of them lies below
    [-len(onset_env)]; what it raises is the [IndexError] for such a
    frame.  Frames at or beyond the end of the curve never raise. *)
Theorem compute_confidence_raises_iff
    (onset_env : list Q) (beat_frames : list Z) (sr hop : Z) :
  sr <> 0%Z ->
  ((exists e, compute_confidence fsqrt onset_env beat_frames sr hop = inl e)
   <-> (4 <= length beat_frames)%nat
       /\ Exists (fun f => (f < - Z.of_nat (length onset_env))%Z) beat_frames)
  /\ (forall e,
         compute_confidence fsqrt onset_env beat_frames sr hop = inl e ->
         exists f, f ∈ beat_frames
                   /\ (f < - Z.of_nat (length onset_env))%Z
                   /\ e = IndexError f (length onset_env)).
Proof.
  intros Hsr.
  assert (Herr : forall e,
             compute_confidence fsqrt onset_env beat_frames sr hop = inl e ->
             (4 <= length beat_frames)%nat
             /\ exists f, f ∈ beat_frames
                          /\ (f < - Z.of_nat (length onset_env))%Z
                          /\ e = IndexError f (length onset_env)).
  { intros e He.
    destruct (Nat.lt_ge_cases (length beat_frames) 4) as [Hlen|Hlen].
    { rewrite compute_confidence_few_frames in He by assumption.
      discriminate. }
    split; [exact Hlen|].
    destruct (np_take onset_env
                (np_mask_lt beat_frames (Z.of_nat (length onset_env))))
      as [e'|strengths] eqn:Htake.
    - rewrite (compute_confidence_take_fails _ _ _ _ e' Hlen Htake) in He.
      injection He as <-. now apply np_take_masked_error.
    - destruct (compute_confidence_after_take _ _ _ hop _ Hsr Htake)
        as [c Hc].
      congruence. }
  split; [split|].
  - intros [e He]. destruct (Herr e He) as (Hlen & f & Hin & Hlo & _).
    split; [exact Hlen|]. apply Exists_exists. now exists f.
  - intros [Hlen Hex].
    destruct (np_take onset_env
                (np_mask_lt beat_frames (Z.of_nat (length onset_env))))
      as [e|strengths] eqn:Htake.
    + exists e. now apply compute_confidence_take_fails.
    + apply np_take_masked_ok in Htake.
      apply Exists_exists in Hex. destruct Hex as (f & Hin & Hlo).
      rewrite Forall_forall in Htake. specialize (Htake f Hin). lia.
  - intros e He. now destruct (Herr e He).
Qed.

Lemma strengths_at_ext env1 env2 frames :
  length env1 = length env2 ->
  (forall f, f ∈ frames -> (0 <= f < Z.of_nat (length env1))%Z ->
             env1 !! Z.to_nat f = env2 !! Z.to_nat f) ->
  strengths_at env1 frames = strengths_at env2 frames.
Proof.
  intros Hlen. unfold strengths_at. rewrite <- Hlen.
  induction frames as [|f fs IH]; intros Hagree; [reflexivity|].
  assert (IH' : omap (fun f => env1 !! Z.to_nat f)
                  (filter (fun f => (0 <= f < Z.of_nat (length env1))%Z) fs)
                = omap (fun f => env2 !! Z.to_nat f)
                    (filter (fun f => (0 <= f < Z.of_nat (length env1))%Z) fs)).
  { apply IH. intros g Hg. apply Hagree. now right. }
  destruct (decide (0 <= f < Z.of_nat (length env1))%Z) as [Hin|Hout].
  - rewrite filter_cons_True by assumption. cbn [omap list_omap].
    rewrite (Hagree f) by (left || assumption).
    destruct (env2 !! Z.to_nat f); [f_equal|]; exact IH'.
  - rewrite filter_cons_False by assumption. exact IH'.
Qed.

(** Only the onset values at the beat positions count: two curves of the
    same length that agree at every in-range beat frame get the same
    score. *)
Theorem compute_confidence_reads_only_beat_positions
    (env1 env2 : list Q) (beat_frames : list Z) (sr hop : Z) :
  length env1 = length env2 ->
  Forall (fun f => (0 <= f)%Z) beat_frames ->
  (forall f, f ∈ beat_frames -> (0 <= f < Z.of_nat (length env1))%Z ->
             env1 !! Z.to_nat f = env2 !! Z.to_nat f) ->
  compute_confidence fsqrt env1 beat_frames sr hop
  = compute_confidence fsqrt env2 beat_frames sr hop.
Proof.
  intros Hlen Hpos Hagree. unfold compute_confidence.
  rewrite (np_take_strengths_at env1 beat_frames Hpos).
  rewrite (np_take_strengths_at env2 beat_frames Hpos).
  now rewrite (strengths_at_ext env1 env2 beat_frames Hlen Hagree).
Qed.

End ScorerFacts.

(** ** A perfectly steady beat grid *)

Lemma foldl_Qplus_const xs a c :
  Forall (fun x => x == c) xs ->
  foldl Qplus a xs == a + inject_Z (Z.of_nat (length xs)) * c.
Proof.
  intros H. revert a. induction H as [|x xs Hx _ IH]; intros a.
  - cbn. ring.
  - cbn [foldl length]. rewrite IH, Hx.
    rewrite Nat2Z.inj_succ, <- Z.add_1_r, inject_Z_plus.
    change (inject_Z 1) with 1. ring.
Qed.

Lemma mean_of_const xs c :
  xs <> [] -> Forall (fun x => x == c) xs -> mean_of xs == c.
Proof.
  intros Hne Hc. unfold mean_of, np_sum.
  rewrite (foldl_Qplus_const xs 0 c Hc).
  assert (Hn : ~ inject_Z (Z.of_nat (length xs)) == 0).
  { apply inject_Z_nonzero. destruct xs; [congruence|cbn; lia]. }
  field. exact Hn.
Qed.

Section SteadyGrid.

Variable fsqrt : Q -> Q.
Hypothesis fsqrt_proper : forall x y, x == y -> fsqrt x == fsqrt y.
Hypothesis fsqrt_zero : fsqrt 0 == 0.

Lemma np_std_const xs c :
  xs <> [] -> Forall (fun x => x == c) xs ->
  exists s, np_std fsqrt xs = inr s /\ s == 0.
Proof.
  intros Hne Hc. rewrite np_std_ok by assumption.
  eexists. split; [reflexivity|].
  rewrite <- fsqrt_zero. apply fsqrt_proper.
  apply mean_of_const; [destruct xs; [congruence|discriminate]|].
  apply Forall_map. apply Forall_forall. intros x Hx. cbn beta.
  rewrite Forall_forall in Hc.
  rewrite Qabs_square, (Hc x Hx), (mean_of_const xs c Hne).
  - ring.
  - now apply Forall_forall.
Qed.

Lemma interval_cv_of_steady times d :
  (2 <= length times)%nat ->
  Forall (fun g => g == d) (np_diff times) -> 0 < d ->
  exists icv, interval_cv_of fsqrt times = inr icv /\ icv == 0.
Proof.
  intros Hlen Hgaps Hd. unfold interval_cv_of.
  destruct (Nat.ltb_spec 1 (length times)); [|lia].
  assert (Hne : np_diff times <> []).
  { apply length_nonempty. rewrite np_diff_length. lia. }
  pose proof (mean_of_const _ d Hne Hgaps) as Hmean.
  rewrite np_mean_ok by assumption. cbn [mbind result_bind].
  destruct (Qlt_bool 0 (mean_of (np_diff times))) eqn:E;
    [|apply Qlt_bool_false in E; lra].
  destruct (np_std_const _ d Hne Hgaps) as (s & Hs & Hs0).
  rewrite Hs. cbn [mbind result_bind].
  rewrite float_div_ok by lra.
  eexists. split; [reflexivity|]. rewrite Hs0. field. lra.
Qed.

Lemma py_clamp_one v : v == 1 -> py_max 0.2 (py_min 1 v) = 1.
Proof.
  intros Hv. unfold py_min.
  destruct (Qlt_bool v 1) eqn:E; [apply Qlt_bool_iff in E; lra|].
  reflexivity.
Qed.

(** Equal onset strengths (not zero) at the beat positions and equal,
    positive gaps between all beat times give the top score 1.000. *)
Theorem steady_grid_full_confidence
    (onset_env : list Q) (beat_frames : list Z) (sr hop : Z) (c d : Q) :
  sr <> 0%Z ->
  Forall (fun f => (0 <= f)%Z) beat_frames ->
  (4 <= length beat_frames)%nat ->
  (2 <= length (strengths_at onset_env beat_frames))%nat ->
  Forall (fun x => x == c) (strengths_at onset_env beat_frames) ->
  ~ c == 0 ->
  Forall (fun g => g == d)
         (successive_gaps (map (frame_time sr hop) beat_frames)) ->
  0 < d ->
  compute_confidence fsqrt onset_env beat_frames sr hop = inr 1.000.
Proof.
  intros Hsr Hpos Hlen Hlen2 Hc Hc0 Hgaps Hd.
  pose proof (np_take_strengths_at onset_env beat_frames Hpos) as Htake.
  set (strengths := strengths_at onset_env beat_frames) in *.
  assert (Hne : strengths <> []) by (apply length_nonempty; lia).
  pose proof (mean_of_const strengths c Hne Hc) as Hmean.
  assert (Hmean0 : ~ mean_of strengths == 0) by (rewrite Hmean; exact Hc0).
  destruct (compute_confidence_combined_path
              fsqrt onset_env beat_frames sr hop strengths
              Hlen Htake Hlen2 Hmean0 Hsr)
    as (std & icv & Hstd & Hicv & Hrun).
  destruct (np_std_const strengths c Hne Hc) as (std' & Hstd' & Hstd0).
  assert (std' = std) as -> by congruence.
  rewrite <- np_diff_gaps in Hgaps.
  destruct (interval_cv_of_steady (map (frame_time sr hop) beat_frames) d)
    as (icv' & Hicv' & Hicv0); [rewrite length_map; lia|assumption..|].
  assert (icv' = icv) as -> by congruence.
  rewrite Hrun.
  rewrite (py_clamp_one (1 - std / mean_of strengths))
    by (rewrite Hstd0; field; exact Hmean0).
  rewrite (py_clamp_one (1 - icv)) by (rewrite Hicv0; ring).
  reflexivity.
Qed.

End SteadyGrid.

Lemma sqrt12_zero : sqrt12 0 == 0.
Proof. reflexivity. Qed.

Lemma steady_grid_full_confidence_witness :
  compute_confidence sqrt12 [5; 7; 7; 7; 7; 7; 7; 7; 7; 9]
    [1; 3; 5; 7]%Z 22050 512 = inr 1.000.
Proof.
  apply (steady_grid_full_confidence sqrt12 sqrt12_proper sqrt12_zero
           [5; 7; 7; 7; 7; 7; 7; 7; 7; 9] [1; 3; 5; 7]%Z 22050 512
           7 (1024 # 22050)).
  - lia.
  - repeat constructor; lia.
  - simpl. lia.
  - vm_compute. lia.
  - repeat constructor; reflexivity.
  - vm_compute. lia.
  - repeat constructor; reflexivity.
  - reflexivity.
Defined.

(** ** More on the endpoint *)

Ltac traced_simpl :=
  cbn [mbind traced_bind lib_call pure_step mret traced_ret app try_except].

Section EndpointFacts.

Variable fsqrt : Q -> Q.
Variable fs : FileSystem.
Variable librosa : Librosa.
Variable request : AnalyzeRequest.

Let path := audio_path request.
Let accepted := str_in (str_lower (path_suffix fs path)) accepted_suffixes.

(** What a response tells about the run that produced it. *)
Lemma analyze_audio_ok_inv calls resp :
  analyze_audio fsqrt fs librosa request = (calls, inr resp) ->
  path_exists fs path = true /\ accepted = true /\ calls = all_calls
  /\ exists y sr dur env tempo frames t conf downs,
       librosa_load librosa path 22050 = inr (y, sr)
       /\ librosa_get_duration librosa y sr = inr dur
       /\ librosa_onset_strength librosa y sr 512 = inr env
       /\ librosa_beat_track librosa env sr 512 120 = inr (tempo, frames)
       /\ match tempo with
          | TempoScalar t0 => mret t0
          | TempoArray ts => np_getitem ts 0
          end = inr t
       /\ compute_confidence fsqrt env frames sr 512 = inr conf
       /\ estimate_downbeats frames t sr 512 = inr downs
       /\ resp = {| bpm := py_round t 2;
                    confidence := conf;
                    beats := map (fun x => py_round x 4)
                                 (map (frame_time sr 512) frames);
                    downbeats := map (fun x => py_round x 4) downs;
                    duration := py_round dur 3 |}.
Proof.
  unfold analyze_audio. fold path.
  destruct (path_exists fs path) eqn:Hex; cbn [negb]; [|discriminate].
  fold accepted. destruct accepted eqn:Hacc; cbn [negb]; [|discriminate].
  destruct (librosa_load librosa path 22050) as [e|[y sr]] eqn:Hload;
    traced_simpl; [discriminate|].
  destruct (librosa_get_duration librosa y sr) as [e|dur] eqn:Hdur;
    traced_simpl; [discriminate|].
  destruct (librosa_onset_strength librosa y sr 512) as [e|env] eqn:Honset;
    traced_simpl; [discriminate|].
  destruct (librosa_beat_track librosa env sr 512 120)
    as [e|[tempo frames]] eqn:Hbeat; traced_simpl; [discriminate|].
  destruct (match tempo with
            | TempoScalar t0 => mret t0
            | TempoArray ts => np_getitem ts 0
            end) as [e|t] eqn:Htempo; traced_simpl; [discriminate|].
  destruct (frames_to_time frames sr 512) as [e|times] eqn:Htimes;
    traced_simpl; [discriminate|].
  destruct (compute_confidence fsqrt env frames sr 512) as [e|conf] eqn:Hconf;
    traced_simpl; [discriminate|].
  destruct (estimate_downbeats frames t sr 512) as [e|downs] eqn:Hdowns;
    traced_simpl; [discriminate|].
  intros [= <- <-]. apply frames_to_time_inv in Htimes. subst times.
  repeat split. exists y, sr, dur, env, tempo, frames, t, conf, downs.
  repeat split; assumption.
Qed.


(** Reading an error answer backwards: a 404 means the path does not
    exist and a 400 means it exists with a suffix outside the accepted
    list, both before any library call; a 500 means both checks passed,
    decoding was started and the detail carries the exception raised. *)
Theorem analyze_audio_error_cause calls h :
  analyze_audio fsqrt fs librosa request = (calls, inl h) ->
  (h = {| status_code := 404; detail := AudioFileNotFound path |}
   /\ path_exists fs path = false /\ calls = [])
  \/ (h = {| status_code := 400;
             detail := UnsupportedAudioFormat (path_suffix fs path) |}
      /\ path_exists fs path = true /\ accepted = false /\ calls = [])
  \/ (exists e rest,
         h = {| status_code := 500; detail := AnalysisFailed e |}
         /\ path_exists fs path = true /\ accepted = true
         /\ calls = Load :: rest).
Proof.
  unfold analyze_audio. fold path.
  destruct (path_exists fs path) eqn:Hex; cbn [negb].
  2:{ intros [= <- <-]. left. repeat split. }
  fold accepted. destruct accepted eqn:Hacc; cbn [negb].
  2:{ intros [= <- <-]. right; left. repeat split. }
  destruct (librosa_load librosa path 22050) as [e|[y sr]]; traced_simpl.
  { intros [= <- <-]. right; right. exists e, []. repeat split. }
  match goal with
  | |- context [let '(t', r) := ?b in _] => destruct b as [t' [e|r]]
  end; traced_simpl; intros [= <- <-].
  right; right. exists e, t'. repeat split.
Qed.

Lemma estimate_downbeats_long_inv frames t sr hop downs :
  (4 <= length frames)%nat ->
  estimate_downbeats frames t sr hop = inr downs ->
  downs = every_fourth (map (frame_time sr hop) frames).
Proof.
  intros Hlen. unfold estimate_downbeats.
  destruct (Nat.ltb_spec (length frames) 4); [lia|].
  destruct (frames_to_time frames sr hop) as [e|times] eqn:Htimes;
    cbn [mbind result_bind]; [discriminate|].
  rewrite downbeat_comprehension. intros [= <-].
  now rewrite (frames_to_time_inv _ _ _ _ Htimes).
Qed.

Section Response.

Variables (calls : list call) (resp : BeatAnalysisResponse).
Variables (y env : list Q) (sr : Z) (dur : Q) (tempo : Tempo) (frames : list Z).

Hypothesis Hrun :
  analyze_audio fsqrt fs librosa request = (calls, inr resp).
Hypothesis Hload : librosa_load librosa path 22050 = inr (y, sr).
Hypothesis Hdur : librosa_get_duration librosa y sr = inr dur.
Hypothesis Honset : librosa_onset_strength librosa y sr 512 = inr env.
Hypothesis Hbeat :
  librosa_beat_track librosa env sr 512 120 = inr (tempo, frames).

Lemma response_fields :
  exists t conf downs,
    match tempo with
    | TempoScalar t0 => mret t0
    | TempoArray ts => np_getitem ts 0
    end = inr t
    /\ compute_confidence fsqrt env frames sr 512 = inr conf
    /\ estimate_downbeats frames t sr 512 = inr downs
    /\ resp = {| bpm := py_round t 2;
                 confidence := conf;
                 beats := map (fun x => py_round x 4)
                              (map (frame_time sr 512) frames);
                 downbeats := map (fun x => py_round x 4) downs;
                 duration := py_round dur 3 |}.
Proof.
  destruct (analyze_audio_ok_inv calls resp Hrun)
    as (_ & _ & _ & y' & sr' & dur' & env' & tempo' & frames' & t & conf
        & downs & Hl & Hd & Ho & Hb & Ht & Hc & He & Hresp).
  fold path in Hload. rewrite Hload in Hl. injection Hl as <- <-.
  rewrite Hdur in Hd. injection Hd as <-.
  rewrite Honset in Ho. injection Ho as <-.
  rewrite Hbeat in Hb. injection Hb as <- <-.
  now exists t, conf, downs.
Qed.

(** The numbers in a response stay close to what the library reported:
    one beat per beat frame, each within 0.00005 s of
    [frame * 512 / sr]; the duration within 0.0005 s; the tempo, a scalar
    or the first entry of an array, within 0.005. *)
Theorem analyze_audio_response_accuracy :
  length (beats resp) = length frames
  /\ (forall i b f,
         beats resp !! i = Some b -> frames !! i = Some f ->
         frame_time sr 512 f - (1 # 20000) <= b
         /\ b <= frame_time sr 512 f + (1 # 20000))
  /\ (dur - (1 # 2000) <= duration resp /\ duration resp <= dur + (1 # 2000))
  /\ (forall t,
         tempo = TempoScalar t \/ (exists rest, tempo = TempoArray (t :: rest)) ->
         t - (1 # 200) <= bpm resp /\ bpm resp <= t + (1 # 200)).
Proof.
  destruct response_fields as (t & conf & downs & Ht & _ & _ & ->).
  cbn [beats duration bpm]. split; [now rewrite !length_map|]. split.
  - intros i b f Hb Hf.
    rewrite !list_lookup_fmap, Hf in Hb. cbn in Hb. injection Hb as <-.
    apply py_round4_error.
  - split; [apply py_round3_error|].
    intros t' [-> | [rest ->]]; cbn in Ht; injection Ht as <-;
      apply py_round2_error.
Qed.

Lemma response_beats_sorted :
  (0 < sr)%Z -> Sorted Z.le frames -> Sorted Qle (beats resp).
Proof.
  intros Hsr Hsorted.
  destruct response_fields as (t & conf & downs & _ & _ & _ & ->).
  cbn [beats]. clear -Hsr Hsorted.
  induction Hsorted as [|f fs _ IH Hhd]; cbn [map]; constructor.
  - exact IH.
  - destruct Hhd as [|g gs Hfg]; cbn [map]; constructor.
    apply py_round_mono. apply frame_time_mono; lia.
Qed.

(** With four or more beat frames the downbeats of a response are a
    subsequence of its beats, one for every started group of four, and
    the first downbeat is the first beat. *)
Theorem analyze_audio_downbeats_of_long_grid :
  (4 <= length frames)%nat ->
  Qsubseq (downbeats resp) (beats resp)
  /\ length (downbeats resp) = ((length frames + 3) / 4)%nat
  /\ (forall k, downbeats resp !! k = beats resp !! (4 * k)%nat).
Proof.
  intros Hlen.
  destruct response_fields as (t & conf & downs & _ & _ & Hdowns & ->).
  apply estimate_downbeats_long_inv in Hdowns; [|assumption]. subst downs.
  cbn [beats downbeats]. split; [|split].
  - apply sublist_Qsubseq, fmap_sublist, every_fourth_sublist.
  - now rewrite length_map, every_fourth_length, length_map.
  - intros k. rewrite !list_lookup_fmap, every_fourth_lookup.
    now rewrite list_lookup_fmap.
Qed.

End Response.

(** Beat frames in ascending order and a positive sample rate give beat
    times in ascending order, also after rounding. *)
Theorem analyze_audio_beats_sorted
    (calls : list call) (resp : BeatAnalysisResponse)
    (y env : list Q) (sr : Z) (dur : Q) (tempo : Tempo) (frames : list Z) :
  analyze_audio fsqrt fs librosa request = (calls, inr resp) ->
  librosa_load librosa path 22050 = inr (y, sr) ->
  librosa_get_duration librosa y sr = inr dur ->
  librosa_onset_strength librosa y sr 512 = inr env ->
  librosa_beat_track librosa env sr 512 120 = inr (tempo, frames) ->
  (0 < sr)%Z ->
  Sorted Z.le frames ->
  Sorted Qle (beats resp).
Proof.
  intros Hrun Hload Hdur Honset Hbeat.
  exact (response_beats_sorted calls resp y env sr dur tempo frames
           Hrun Hload Hdur Honset Hbeat).
Qed.

(** A tempo array of any length is reduced to its first entry; an empty
    one ends the request with the 500 for [IndexError], after all four
    library calls. *)
Theorem analyze_audio_tempo_array
    (y env : list Q) (sr : Z) (dur : Q) (ts : list Q) (frames : list Z) :
  path_exists fs path = true -> accepted = true ->
  librosa_load librosa path 22050 = inr (y, sr) ->
  librosa_get_duration librosa y sr = inr dur ->
  librosa_onset_strength librosa y sr 512 = inr env ->
  librosa_beat_track librosa env sr 512 120 = inr (TempoArray ts, frames) ->
  sr <> 0%Z ->
  Forall (fun f => (0 <= f)%Z) frames ->
  match ts with
  | [] =>
      analyze_audio fsqrt fs librosa request
      = (all_calls,
         inl {| status_code := 500;
                detail := AnalysisFailed (IndexError 0 0) |})
  | t :: _ =>
      exists resp,
        analyze_audio fsqrt fs librosa request = (all_calls, inr resp)
        /\ bpm resp = py_round t 2
  end.
Proof.
  intros Hex Hacc Hload Hdur Honset Hbeat Hsr Hpos.
  unfold analyze_audio. fold path. rewrite Hex. cbn [negb].
  fold accepted. rewrite Hacc. cbn [negb].
  rewrite Hload. traced_simpl. rewrite Hdur. traced_simpl.
  rewrite Honset. traced_simpl. rewrite Hbeat. traced_simpl.
  destruct ts as [|t rest]; [reflexivity|].
  change (np_getitem (t :: rest) 0) with (@inr exn Q t). traced_simpl.
  rewrite frames_to_time_ok by assumption. traced_simpl.
  assert (exists conf, compute_confidence fsqrt env frames sr 512 = inr conf)
    as (conf & Hconf).
  { destruct (compute_confidence_cases fsqrt env frames sr 512 Hsr Hpos)
      as [H | [H | (a & b & H)]]; eexists; exact H. }
  destruct (estimate_downbeats_total frames t sr 512 Hsr) as (downs & Hdowns).
  rewrite Hconf. traced_simpl. rewrite Hdowns. traced_simpl.
  eexists. split; reflexivity.
Qed.

End EndpointFacts.

(** * Properties of the effects chain *)

Section ChainFacts.

Import Effects.

Variable AudioSegment : Type.
Variables slice_until slice_from : AudioSegment -> Z -> AudioSegment.
Variable concat : AudioSegment -> AudioSegment -> AudioSegment.
Variables high_pass_filter low_pass_filter : AudioSegment -> Z -> AudioSegment.
Variable apply_gain : AudioSegment -> Q -> AudioSegment.
Variable pan : AudioSegment -> Q -> AudioSegment.
Variable overlay : AudioSegment -> AudioSegment -> AudioSegment.
Variable parse_float : string -> option Q.

Let chain :=
  apply_placeholder_chain AudioSegment slice_until slice_from concat
    high_pass_filter low_pass_filter apply_gain pan overlay parse_float.
Let to_float := py_float parse_float.

(** An engine name outside the three known ones leaves the audio as it
    is, provided the two orbit settings convert to numbers; a preview
    length of 0 counts as no preview. *)
Theorem unknown_engine_passes_audio_through
    (audio : AudioSegment) (engine : string) (settings : gmap string json)
    (preview : option Q) (speed depth : Q) :
  str_in engine ["rave-ddsp"; "rave-ddsp-8d"; "resonance-8d"]%string = false ->
  to_float (settings_get settings "orbitSpeed" (JNumber 0.5)) = inr speed ->
  to_float (settings_get settings "orbitDepth" (JNumber 0.8)) = inr depth ->
  preview = None \/ preview = Some 0 ->
  chain audio engine settings preview = inr audio.
Proof.
  intros Hengine Hspeed Hdepth Hpreview.
  unfold chain, apply_placeholder_chain. fold to_float.
  rewrite Hspeed, Hdepth. cbn [mbind fx_bind].
  cbn [str_in existsb] in Hengine |- *.
  destruct (String.eqb engine "rave-ddsp");
    destruct (String.eqb engine "rave-ddsp-8d");
    destruct (String.eqb engine "resonance-8d"); try discriminate.
  cbn [orb mbind fx_bind mret fx_ret].
  destruct Hpreview as [-> | ->]; reflexivity.
Qed.

(** The combined engine is the two single ones in sequence: the result
    for "rave-ddsp-8d" is the result of "resonance-8d" applied to the
    result of "rave-ddsp", errors included. *)
Theorem combined_engine_is_sequence
    (audio : AudioSegment) (settings : gmap string json) (preview : option Q) :
  chain audio "rave-ddsp-8d" settings preview
  = (filtered ← chain audio "rave-ddsp" settings preview;
     chain filtered "resonance-8d" settings None).
Proof.
  unfold chain, apply_placeholder_chain. fold to_float.
  destruct (to_float (settings_get settings "orbitSpeed" (JNumber 0.5)))
    as [e|speed]; [reflexivity|].
  destruct (to_float (settings_get settings "orbitDepth" (JNumber 0.8)))
    as [e|depth]; [reflexivity|].
  cbn [mbind fx_bind str_in existsb String.eqb Ascii.eqb Bool.eqb orb andb].
  destruct (to_float (settings_get settings "clarity" (JNumber 0.7)))
    as [e|clarity]; reflexivity.
Qed.





(** A depth of 2 makes a panning engine fail although every setting is a
    number. *)
Example depth_out_of_range_fails :
  ms_chain [10; 20; 30]%Z "resonance-8d"
    (<["orbitDepth" := JNumber 2]> ∅) None
  = inl ValueError.
Proof. vm_compute. reflexivity. Qed.

(** Only the two "rave-ddsp" engines read the clarity setting: for any
    other engine name the result is the same with any clarity entry,
    convertible or not. *)
Theorem clarity_is_read_only_by_rave_engines
    (audio : AudioSegment) (engine : string) (settings : gmap string json)
    (preview : option Q) (v : json) :
  str_in engine ["rave-ddsp"; "rave-ddsp-8d"]%string = false ->
  chain audio engine (<["clarity" := v]> settings) preview
  = chain audio engine settings preview.
Proof.
  intros Hengine. unfold chain, apply_placeholder_chain.
  rewrite Hengine. unfold settings_get.
  rewrite !lookup_insert_ne by discriminate. reflexivity.
Qed.

End ChainFacts.

(** * More on the downbeat estimator *)

(** For a sample rate that is not zero the estimator returns one downbeat
    for every started group of four beat frames: none for no frames, one
    for one to four frames, two for five to eight, and so on. *)
Theorem estimate_downbeats_count (beats : list Z) (bpm : Q) (sr hop : Z) :
  sr <> 0%Z ->
  exists downs,
    estimate_downbeats beats bpm sr hop = inr downs
    /\ length downs = ((length beats + 3) / 4)%nat
    /\ (length downs <= length beats)%nat.
Proof.
  intros Hsr.
  destruct (Nat.lt_ge_cases (length beats) 4) as [Hlen|Hlen].
  - destruct beats as [|a [|b [|c [|d r]]]]; try (cbn in Hlen; lia);
      eexists; (split; [reflexivity|]); cbn; lia.
  - eexists. split; [now apply estimate_downbeats_long|].
    rewrite every_fourth_length, length_map. split; [reflexivity|].
    pose proof (Nat.div_mod_eq (length beats + 3) 4).
    pose proof (Nat.mod_upper_bound (length beats + 3) 4). lia.
Qed.

Lemma estimate_downbeats_count_witness :
  exists downs,
    estimate_downbeats [2; 4; 6; 8; 10]%Z 120 22050 512 = inr downs
    /\ length downs = 2%nat
    /\ (length downs <= 5)%nat.
Proof.
  apply (estimate_downbeats_count [2; 4; 6; 8; 10]%Z 120 22050 512). lia.
Defined.

(** * Runs of the further properties *)

Lemma compute_confidence_value_is_thousandths_witness :
  exists k : Z, (200 <= k <= 1000)%Z /\ 0.454 == k # 1000.
Proof.
  apply (compute_confidence_value_is_thousandths sqrt12
           [1; 2; 3; 4; 5; 6; 7; 8; 9] [1; 2; 4; 8]%Z 22050 512 0.454).
  vm_compute. reflexivity.
Defined.

Lemma compute_confidence_raises_iff_witness :
  exists e, compute_confidence sqrt12 [1; 1] [-5; 0; 1; 1]%Z 22050 512 = inl e.
Proof.
  apply (proj1 (compute_confidence_raises_iff sqrt12
                  [1; 1] [-5; 0; 1; 1]%Z 22050 512 ltac:(lia))).
  split; [simpl; lia|]. constructor. simpl. lia.
Defined.

Lemma compute_confidence_reads_only_beat_positions_witness :
  compute_confidence sqrt12 [100; 2; 3; 4; 5; 6] [1; 2; 3; 5; 9]%Z 22050 512
  = compute_confidence sqrt12 [0; 2; 3; 4; 77; 6] [1; 2; 3; 5; 9]%Z 22050 512.
Proof.
  apply (compute_confidence_reads_only_beat_positions sqrt12
           [100; 2; 3; 4; 5; 6] [0; 2; 3; 4; 77; 6] [1; 2; 3; 5; 9]%Z
           22050 512).
  - reflexivity.
  - repeat constructor; lia.
  - intros f Hf _.
    repeat (apply elem_of_cons in Hf; destruct Hf as [->|Hf];
            [reflexivity|]).
    inversion Hf.
Defined.


Lemma analyze_audio_error_cause_witness :
  ({| status_code := 400; detail := UnsupportedAudioFormat ".xyz" |}
   = {| status_code := 404; detail := AudioFileNotFound "song.xyz" |}
   /\ path_exists (fs_with_suffix ".xyz") "song.xyz" = false
   /\ @nil call = [])
  \/ ({| status_code := 400; detail := UnsupportedAudioFormat ".xyz" |}
      = {| status_code := 400;
           detail := UnsupportedAudioFormat
                       (path_suffix (fs_with_suffix ".xyz") "song.xyz") |}
      /\ path_exists (fs_with_suffix ".xyz") "song.xyz" = true
      /\ str_in (str_lower (path_suffix (fs_with_suffix ".xyz") "song.xyz"))
                accepted_suffixes = false
      /\ @nil call = [])
  \/ (exists e rest,
         {| status_code := 400; detail := UnsupportedAudioFormat ".xyz" |}
         = {| status_code := 500; detail := AnalysisFailed e |}
         /\ path_exists (fs_with_suffix ".xyz") "song.xyz" = true
         /\ str_in (str_lower (path_suffix (fs_with_suffix ".xyz") "song.xyz"))
                   accepted_suffixes = true
         /\ [] = Load :: rest).
Proof.
  apply (analyze_audio_error_cause sqrt12 (fs_with_suffix ".xyz")
           (librosa_broken "decode") {| audio_path := "song.xyz" |}
           [] {| status_code := 400; detail := UnsupportedAudioFormat ".xyz" |}).
  reflexivity.
Defined.

Lemma analyze_audio_response_accuracy_witness :
  exists resp,
    analyze_audio sqrt12 (fs_with_suffix ".wav")
      (librosa_stub [0; 0; 0] (7 # 3) [1; 2; 3; 4; 5; 6; 7; 8; 9]
                    (TempoArray [1234567 # 10000; 60])
                    [1; 2; 4; 8; 20]%Z)
      {| audio_path := "song.wav" |} = (all_calls, inr resp)
    /\ length (beats resp) = 5%nat
    /\ ((7 # 3) - (1 # 2000) <= duration resp
        /\ duration resp <= (7 # 3) + (1 # 2000))
    /\ ((1234567 # 10000) - (1 # 200) <= bpm resp
        /\ bpm resp <= (1234567 # 10000) + (1 # 200)).
Proof.
  eexists. split; [vm_compute; reflexivity|].
  destruct (analyze_audio_response_accuracy sqrt12 (fs_with_suffix ".wav")
              (librosa_stub [0; 0; 0] (7 # 3) [1; 2; 3; 4; 5; 6; 7; 8; 9]
                            (TempoArray [1234567 # 10000; 60])
                            [1; 2; 4; 8; 20]%Z)
              {| audio_path := "song.wav" |} all_calls _
              [0; 0; 0] [1; 2; 3; 4; 5; 6; 7; 8; 9] 22050 (7 # 3)
              (TempoArray [1234567 # 10000; 60]) [1; 2; 4; 8; 20]%Z
              ltac:(vm_compute; reflexivity) eq_refl eq_refl eq_refl eq_refl)
    as (Hlen & _ & Hdur & Hbpm).
  split; [exact Hlen|]. split; [exact Hdur|].
  apply Hbpm. right. now exists [60].
Defined.

Lemma analyze_audio_beats_sorted_witness :
  exists resp,
    analyze_audio sqrt12 (fs_with_suffix ".wav")
      (librosa_stub [0; 0; 0] (7 # 3) [1; 2; 3; 4; 5; 6; 7; 8; 9]
                    (TempoScalar 120) [1; 2; 4; 8; 20]%Z)
      {| audio_path := "song.wav" |} = (all_calls, inr resp)
    /\ Sorted Qle (beats resp).
Proof.
  eexists. split; [vm_compute; reflexivity|].
  apply (analyze_audio_beats_sorted sqrt12 (fs_with_suffix ".wav")
           (librosa_stub [0; 0; 0] (7 # 3) [1; 2; 3; 4; 5; 6; 7; 8; 9]
                         (TempoScalar 120) [1; 2; 4; 8; 20]%Z)
           {| audio_path := "song.wav" |} all_calls _
           [0; 0; 0] [1; 2; 3; 4; 5; 6; 7; 8; 9] 22050 (7 # 3)
           (TempoScalar 120) [1; 2; 4; 8; 20]%Z
           ltac:(vm_compute; reflexivity) eq_refl eq_refl eq_refl eq_refl).
  - lia.
  - repeat constructor; lia.
Defined.

Lemma analyze_audio_downbeats_of_long_grid_witness :
  exists resp,
    analyze_audio sqrt12 (fs_with_suffix ".wav")
      (librosa_stub [0; 0; 0] (7 # 3) [1; 2; 3; 4; 5; 6; 7; 8; 9]
                    (TempoScalar 120) [1; 2; 4; 8; 20]%Z)
      {| audio_path := "song.wav" |} = (all_calls, inr resp)
    /\ Qsubseq (downbeats resp) (beats resp)
    /\ length (downbeats resp) = 2%nat.
Proof.
  eexists. split; [vm_compute; reflexivity|].
  destruct (analyze_audio_downbeats_of_long_grid sqrt12
              (fs_with_suffix ".wav")
              (librosa_stub [0; 0; 0] (7 # 3) [1; 2; 3; 4; 5; 6; 7; 8; 9]
                            (TempoScalar 120) [1; 2; 4; 8; 20]%Z)
              {| audio_path := "song.wav" |} all_calls _
              [0; 0; 0] [1; 2; 3; 4; 5; 6; 7; 8; 9] 22050 (7 # 3)
              (TempoScalar 120) [1; 2; 4; 8; 20]%Z
              ltac:(vm_compute; reflexivity) eq_refl eq_refl eq_refl eq_refl
              ltac:(simpl; lia))
    as (Hsub & Hlen & _).
  split; [exact Hsub|exact Hlen].
Defined.

Lemma analyze_audio_tempo_array_witness :
  exists resp,
    analyze_audio sqrt12 (fs_with_suffix ".wav")
      (librosa_stub [0; 0; 0] (7 # 3) [1; 2; 3; 4; 5; 6; 7; 8; 9]
                    (TempoArray [1234567 # 10000; 60]) [1; 2; 4; 8]%Z)
      {| audio_path := "song.wav" |} = (all_calls, inr resp)
    /\ bpm resp = py_round (1234567 # 10000) 2.
Proof.
  apply (analyze_audio_tempo_array sqrt12 (fs_with_suffix ".wav")
           (librosa_stub [0; 0; 0] (7 # 3) [1; 2; 3; 4; 5; 6; 7; 8; 9]
                         (TempoArray [1234567 # 10000; 60]) [1; 2; 4; 8]%Z)
           {| audio_path := "song.wav" |}
           [0; 0; 0] [1; 2; 3; 4; 5; 6; 7; 8; 9] 22050 (7 # 3)
           [1234567 # 10000; 60] [1; 2; 4; 8]%Z);
    try reflexivity.
  - lia.
  - repeat constructor; lia.
Defined.

Lemma unknown_engine_passes_audio_through_witness :
  ms_chain [10; 20; 30]%Z "bypass" ∅ (Some 0) = inr [10; 20; 30]%Z.
Proof.
  apply (unknown_engine_passes_audio_through (list Z)
           (fun a n => take (Z.to_nat n) a) (fun a n => drop (Z.to_nat n) a)
           app (fun a _ => a) (fun a _ => a) (fun a _ => a) (fun a _ => a)
           (fun _ b => b) (fun _ => None)
           [10; 20; 30]%Z "bypass" ∅ (Some 0) 0.5 0.8);
    try reflexivity.
  now right.
Defined.

Lemma clarity_is_read_only_by_rave_engines_witness :
  ms_chain [10; 20; 30]%Z "resonance-8d"
    (<["clarity" := Effects.JString "loud"]> ∅) None
  = ms_chain [10; 20; 30]%Z "resonance-8d" ∅ None.
Proof.
  apply (clarity_is_read_only_by_rave_engines (list Z)
           (fun a n => take (Z.to_nat n) a) (fun a n => drop (Z.to_nat n) a)
           app (fun a _ => a) (fun a _ => a) (fun a _ => a) (fun a _ => a)
           (fun _ b => b) (fun _ => None)
           [10; 20; 30]%Z "resonance-8d" ∅ None (Effects.JString "loud")).
  reflexivity.
Defined.

(** An orbit speed of 0 still rotates the right channel, by one
    millisecond. *)
Example slow_orbit_rotates_by_one :
  ms_chain [10; 20; 30]%Z "resonance-8d"
    (<["orbitSpeed" := Effects.JNumber 0]> ∅) None
  = inr [20; 30; 10]%Z.
Proof. vm_compute. reflexivity. Qed.
